(** * Maquina-Enigma: the Enigma M3 cipher engine

    A shallow embedding of the cipher engine of the repository
    (front/src/lib/enigma.ts, with its plain JavaScript twin under enigma/)
    and of the properties its specification states about it.

    JavaScript strings are modelled by [string]; a character is a string of
    length one.  The model covers code units below 128 ([JS.seven_bit]), on
    which [toUpperCase] is the function given here; a statement that
    observes the upper-cased text of an arbitrary input carries that
    restriction as a hypothesis.  Numbers are the integers the
    program can produce, plus [NaN].  A method either returns or throws
    ([outcome]); a method that mutates its object returns the object too,
    also when it throws. *)

From Stdlib Require Import ZArith String Ascii List Lia Bool.
From stdpp Require Import base option list list_numbers gmap strings.
Import ListNotations.
Local Open Scope Z_scope.

(** ** The fragment of JavaScript the engine relies on *)

Module JS.

Inductive number : Type :=
| NaN
| Num (z : Z).

Inductive value : Type :=
| undefined
| str (s : string).

Inductive exn : Type :=
| Error (message : string)
| TypeError.

Inductive outcome (A : Type) : Type :=
| Ret (a : A)
| Throw (e : exn).

Arguments Ret {A} a.
Arguments Throw {A} e.

Global Instance number_eq_dec : EqDecision number.
Proof. solve_decision. Defined.
Global Instance value_eq_dec : EqDecision value.
Proof. solve_decision. Defined.
Global Instance exn_eq_dec : EqDecision exn.
Proof. solve_decision. Defined.
Global Instance outcome_eq_dec {A} `{EqDecision A} : EqDecision (outcome A).
Proof. solve_decision. Defined.

Definition bind {A B : Type} (m : outcome A) (k : A -> outcome B) : outcome B :=
  match m with
  | Ret a => k a
  | Throw e => Throw e
  end.

Definition add (a b : number) : number :=
  match a, b with
  | Num x, Num y => Num (x + y)
  | _, _ => NaN
  end.

Definition sub (a b : number) : number :=
  match a, b with
  | Num x, Num y => Num (x - y)
  | _, _ => NaN
  end.

(** [a % b]: the remainder takes the sign of the dividend. *)
Definition rem (a b : number) : number :=
  match a, b with
  | Num x, Num y => if y =? 0 then NaN else Num (Z.rem x y)
  | _, _ => NaN
  end.

Definition lt (a b : number) : bool :=
  match a, b with
  | Num x, Num y => x <? y
  | _, _ => false
  end.

Definition gt (a b : number) : bool := lt b a.

(** [s.charCodeAt(0)] *)
Definition charCodeAt0 (s : string) : number :=
  match s with
  | EmptyString => NaN
  | String c _ => Num (Z.of_N (N_of_ascii c))
  end.

(** [s[n]] on a string. *)
Definition at_ (s : string) (n : number) : value :=
  match n with
  | NaN => undefined
  | Num z =>
      if z <? 0 then undefined
      else match String.get (Z.to_nat z) s with
           | Some c => str (String c EmptyString)
           | None => undefined
           end
  end.

(** [toUpperCase], on code units below 128: the letters a..z go to A..Z,
    nothing else moves.  Beyond them the method of the language does more
    (U+00DF becomes two characters, U+0131 becomes I), which the function
    below does not follow. *)
Definition upper (c : ascii) : ascii :=
  let n := N_of_ascii c in
  if ((97 <=? n) && (n <=? 122))%N then ascii_of_N (n - 32) else c.

Fixpoint toUpperCase (s : string) : string :=
  match s with
  | EmptyString => EmptyString
  | String c s' => String (upper c) (toUpperCase s')
  end.

(** The strings on which [toUpperCase] above is the method of the
    language: every code unit is below 128. *)
Fixpoint seven_bit (s : string) : bool :=
  match s with
  | EmptyString => true
  | String c s' => (N_of_ascii c <? 128)%N && seven_bit s'
  end.

(** [s.includes(t)]: [t] occurs in [s] as a substring. *)
Fixpoint includes (s t : string) : bool :=
  String.prefix t s ||
  match s with
  | EmptyString => false
  | String _ s' => includes s' t
  end.

(** [v === s] for a string [s]. *)
Definition strict_eq (v : value) (s : string) : bool :=
  match v with
  | undefined => false
  | str s' => String.eqb s' s
  end.

(** [for (const ch of s)] *)
Fixpoint chars (s : string) : list string :=
  match s with
  | EmptyString => []
  | String c s' => String c EmptyString :: chars s'
  end.

(** A method call on [v]: a TypeError when [v] is [undefined]. *)
Definition receiver (v : value) : outcome string :=
  match v with
  | undefined => Throw TypeError
  | str s => Ret s
  end.

(** Arrays, as far as [new Array(n)], [a[i] = v] and [a.join] go:
    holes and [undefined] both join as the empty string. *)
Definition new_Array (n : nat) : list value := replicate n undefined.

Definition array_set (a : list value) (i : number) (v : value) : list value :=
  match i with
  | NaN => a
  | Num z =>
      if z <? 0 then a
      else if z <? Z.of_nat (length a) then <[Z.to_nat z := v]> a
      else a ++ replicate (Z.to_nat z - length a) undefined ++ [v]
  end.

Fixpoint join (a : list value) : string :=
  match a with
  | [] => EmptyString
  | undefined :: a' => join a'
  | str s :: a' => String.append s (join a')
  end.

End JS.

Import JS.

Notation "'let!' x := m 'in' k" := (JS.bind m (fun x => k))
  (at level 10, x name, m at level 100, k at level 200).

Definition ALPHABET : string := "ABCDEFGHIJKLMNOPQRSTUVWXYZ".

Definition n65 : number := Num 65.
Definition n26 : number := Num 26.

(** ** Rotor *)

Module Rotor.

Record t : Type := mk {
  wiring : string;
  notchChar : string;
  posicao : number;
  inverseWiring : string
}.

Definition _calcularInverseWiring (wiring : string) : outcome string :=
  let! inv := foldl (fun acc i =>
                       let! inv := acc in
                       let! saida := receiver (at_ wiring (Num i)) in
                       let idxSaida := sub (charCodeAt0 saida) n65 in
                       Ret (array_set inv idxSaida (at_ ALPHABET (Num i))))
                    (Ret (new_Array 26)) (seqZ 0 26) in
  Ret (join inv).

Definition new (wiring notchChar : string) (posicaoInicial : number) : outcome t :=
  if negb (String.length wiring =? 26)%nat
  then Throw (Error "Rotor wiring must have 26 letters")
  else
    let w := toUpperCase wiring in
    let! inv := _calcularInverseWiring w in
    Ret {| wiring := w;
           notchChar := toUpperCase notchChar;
           posicao := rem posicaoInicial n26;
           inverseWiring := inv |}.

Definition set_posicao (r : t) (p : number) : t :=
  {| wiring := wiring r; notchChar := notchChar r; posicao := p;
     inverseWiring := inverseWiring r |}.

Definition girar (r : t) : t :=
  set_posicao r (rem (add (posicao r) (Num 1)) n26).

Definition estaNoNotch (r : t) : bool :=
  let letraNaJanela := at_ ALPHABET (posicao r) in
  strict_eq letraNaJanela (notchChar r).

Definition passarParaFrente (r : t) (letra : value) : outcome value :=
  let! l := receiver letra in
  let idxEntrada := sub (charCodeAt0 l) n65 in
  let idxComOffset := rem (add (add idxEntrada (posicao r)) n26) n26 in
  let! letraSaida := receiver (at_ (wiring r) idxComOffset) in
  let idxSaida := sub (charCodeAt0 letraSaida) n65 in
  let idxFinal := rem (add (sub idxSaida (posicao r)) n26) n26 in
  Ret (at_ ALPHABET idxFinal).

Definition passarParaTras (r : t) (letra : value) : outcome value :=
  let! l := receiver letra in
  let idxEntrada := sub (charCodeAt0 l) n65 in
  let idxComOffset := rem (add (add idxEntrada (posicao r)) n26) n26 in
  let! letraSaida := receiver (at_ (inverseWiring r) idxComOffset) in
  let idxSaida := sub (charCodeAt0 letraSaida) n65 in
  let idxFinal := rem (add (sub idxSaida (posicao r)) n26) n26 in
  Ret (at_ ALPHABET idxFinal).

(** The rotor is mutated only when no error is raised. *)
Definition setPosicaoPorLetra (letra : string) (r : t) : outcome unit * t :=
  let idx := sub (charCodeAt0 (toUpperCase letra)) n65 in
  if lt idx (Num 0) || gt idx (Num 25)
  then (Throw (Error "Invalid position"), r)
  else (Ret tt, set_posicao r idx).

Definition getPosicaoLetra (r : t) : value := at_ ALPHABET (posicao r).

End Rotor.

(** ** Plugboard *)

Module Plugboard.

Record t : Type := mk { mapa : gmap string string }.

Definition new (pares : list string) : t :=
  (* Initialize identity mapping *)
  let mapa := foldl (fun mapa letra => <[letra := letra]> mapa) ∅ (chars ALPHABET) in
  (* Apply pairs *)
  let mapa :=
    foldl (fun mapa par =>
             match par with
             | String x (String y EmptyString) =>
                 let a := toUpperCase (String x EmptyString) in
                 let b := toUpperCase (String y EmptyString) in
                 if negb (includes ALPHABET a) || negb (includes ALPHABET b)
                 then mapa
                 else <[b := a]> (<[a := b]> mapa)
             | _ => mapa
             end) mapa pares in
  {| mapa := mapa |}.

Definition trocar (p : t) (letra : value) : outcome value :=
  let! s := receiver letra in
  let l := toUpperCase s in
  if negb (includes ALPHABET l) then Ret letra
  else Ret (str (default l (mapa p !! l))).

End Plugboard.

(** ** Reflector *)

Module Reflector.

Record t : Type := mk { wiring : string }.

Definition new (wiring : string) : outcome t :=
  if negb (String.length wiring =? 26)%nat
  then Throw (Error "Reflector wiring must have 26 letters")
  else Ret {| wiring := toUpperCase wiring |}.

Definition refletir (r : t) (letra : value) : outcome value :=
  let! l := receiver letra in
  let idx := sub (charCodeAt0 l) n65 in
  if lt idx (Num 0) || gt idx (Num 25) then Ret letra
  else Ret (at_ (wiring r) idx).

End Reflector.

(** ** Signal path *)

Inductive Component : Type :=
| input | plugboard_in | rotor_r | rotor_m | rotor_l | reflector_
| rotor_l_back | rotor_m_back | rotor_r_back | plugboard_out | output.

Record SignalStep : Type := mkStep {
  component : Component;
  step_inputLetter : string;
  step_outputLetter : string;
  inputIndex : number;
  outputIndex : number
}.

Record SignalPath : Type := mkPath {
  steps : list SignalStep;
  inputLetter : string;
  outputLetter : string
}.

(** ** The machine *)

Module Enigma.

(** [rotors] is the array [left, middle, right]; the constructor takes
    exactly three entries and nothing resizes the array afterwards.  Every
    construction site of the repository fills it with three rotors fresh
    from their factories, so the three entries are distinct objects. *)
Record t : Type := mk {
  reflector : Reflector.t;
  rotors : Rotor.t * Rotor.t * Rotor.t;
  plugboard : Plugboard.t
}.

Definition new (reflector : Reflector.t) (rotors : list Rotor.t)
    (plugboard : Plugboard.t) : outcome t :=
  match rotors with
  | [rotorEsq; rotorMeio; rotorDir] =>
      Ret {| reflector := reflector;
             rotors := (rotorEsq, rotorMeio, rotorDir);
             plugboard := plugboard |}
  | _ => Throw (Error "Use exactly 3 rotors for M3 version")
  end.

Definition set_rotors (m : t) (rs : Rotor.t * Rotor.t * Rotor.t) : t :=
  {| reflector := reflector m; rotors := rs; plugboard := plugboard m |}.

(** The loop [for (let i = 0; i < 3; i++)] unrolled; an error leaves the
    loop at once, with the rotors as they are at that moment. *)
Definition setPosicoes (posicoes : list string) (m : t) : outcome unit * t :=
  match posicoes with
  | [p0; p1; p2] =>
      let '(r0, r1, r2) := rotors m in
      match Rotor.setPosicaoPorLetra p0 r0 with
      | (Throw e, r0) => (Throw e, set_rotors m (r0, r1, r2))
      | (Ret _, r0) =>
          match Rotor.setPosicaoPorLetra p1 r1 with
          | (Throw e, r1) => (Throw e, set_rotors m (r0, r1, r2))
          | (Ret _, r1) =>
              match Rotor.setPosicaoPorLetra p2 r2 with
              | (Throw e, r2) => (Throw e, set_rotors m (r0, r1, r2))
              | (Ret _, r2) => (Ret tt, set_rotors m (r0, r1, r2))
              end
          end
      end
  | _ => (Throw (Error "3 positions required (left, middle, right)"), m)
  end.

Definition getPosicoes (m : t) : list value :=
  let '(r0, r1, r2) := rotors m in
  map Rotor.getPosicaoLetra [r0; r1; r2].

Definition _stepRotores (m : t) : t :=
  let '(rotorEsq, rotorMeio, rotorDir) := rotors m in
  let meioNoNotch := Rotor.estaNoNotch rotorMeio in
  let dirNoNotch := Rotor.estaNoNotch rotorDir in
  (* Double-step mechanism *)
  let '(rotorMeio, rotorEsq) :=
    if meioNoNotch then (Rotor.girar rotorMeio, Rotor.girar rotorEsq)
    else (rotorMeio, rotorEsq) in
  let rotorMeio := if dirNoNotch then Rotor.girar rotorMeio else rotorMeio in
  let rotorDir := Rotor.girar rotorDir in
  set_rotors m (rotorEsq, rotorMeio, rotorDir).

Definition step_of (component : Component) (prev c : string) : SignalStep :=
  {| component := component;
     step_inputLetter := prev;
     step_outputLetter := c;
     inputIndex := sub (charCodeAt0 prev) n65;
     outputIndex := sub (charCodeAt0 c) n65 |}.

(** The value a stage hands on: the record pushed right after the stage
    evaluates [c.charCodeAt(0)], a TypeError when [c] is [undefined]. *)
Definition pushed (o : outcome value) : outcome string :=
  let! c := o in receiver c.

(** The routing of one letter, once the rotors have stepped. *)
Definition route (m : t) (c : string) : outcome SignalPath :=
  let '(rotor0, rotor1, rotor2) := rotors m in
  let originalInput := c in
  (* Input *)
  let steps := [step_of input c c] in
  (* 2. Plugboard (input) *)
  let prev := c in
  let! c := pushed (Plugboard.trocar (plugboard m) (str c)) in
  let steps := steps ++ [step_of plugboard_in prev c] in
  (* 3. Forward path: right -> left *)
  let prev := c in
  let! c := pushed (Rotor.passarParaFrente rotor2 (str c)) in
  let steps := steps ++ [step_of rotor_r prev c] in
  let prev := c in
  let! c := pushed (Rotor.passarParaFrente rotor1 (str c)) in
  let steps := steps ++ [step_of rotor_m prev c] in
  let prev := c in
  let! c := pushed (Rotor.passarParaFrente rotor0 (str c)) in
  let steps := steps ++ [step_of rotor_l prev c] in
  (* 4. Reflector *)
  let prev := c in
  let! c := pushed (Reflector.refletir (reflector m) (str c)) in
  let steps := steps ++ [step_of reflector_ prev c] in
  (* 5. Backward path: left -> right *)
  let prev := c in
  let! c := pushed (Rotor.passarParaTras rotor0 (str c)) in
  let steps := steps ++ [step_of rotor_l_back prev c] in
  let prev := c in
  let! c := pushed (Rotor.passarParaTras rotor1 (str c)) in
  let steps := steps ++ [step_of rotor_m_back prev c] in
  let prev := c in
  let! c := pushed (Rotor.passarParaTras rotor2 (str c)) in
  let steps := steps ++ [step_of rotor_r_back prev c] in
  (* 6. Plugboard (output) *)
  let prev := c in
  let! c := pushed (Plugboard.trocar (plugboard m) (str c)) in
  let steps := steps ++ [step_of plugboard_out prev c] in
  (* Output *)
  let steps := steps ++ [step_of output c c] in
  Ret {| steps := steps; inputLetter := originalInput; outputLetter := c |}.

Definition encipherCharWithPath (letra : string) (m : t) : outcome SignalPath * t :=
  let c := toUpperCase letra in
  if negb (includes ALPHABET c)
  then (Ret {| steps := []; inputLetter := letra; outputLetter := letra |}, m)
  else
    (* 1. Step rotors *)
    let m := _stepRotores m in
    (route m c, m).

Definition encipherChar (letra : string) (m : t) : outcome string * t :=
  let '(result, m) := encipherCharWithPath letra m in
  (let! result := result in Ret (outputLetter result), m).

Fixpoint encipherText_loop (chs : list string) (resultado : string) (m : t)
    : outcome string * t :=
  match chs with
  | [] => (Ret resultado, m)
  | ch :: chs =>
      match encipherChar ch m with
      | (Ret out, m) => encipherText_loop chs (String.append resultado out) m
      | (Throw e, m) => (Throw e, m)
      end
  end.

Definition encipherText (texto : string) (m : t) : outcome string * t :=
  encipherText_loop (chars texto) EmptyString m.

End Enigma.

(** ** Standard M3 rotors and reflectors *)

Definition ROTOR_I : outcome Rotor.t := Rotor.new "EKMFLGDQVZNTOWYHXUSPAIBRCJ" "Q" (Num 0).
Definition ROTOR_II : outcome Rotor.t := Rotor.new "AJDKSIRUXBLHWTMCQGZNPYFVOE" "E" (Num 0).
Definition ROTOR_III : outcome Rotor.t := Rotor.new "BDFHJLCPRTXVZNYEIWGAKMUSQO" "V" (Num 0).
Definition ROTOR_IV : outcome Rotor.t := Rotor.new "ESOVPZJAYQUIRHXLNFTGKDCMWB" "J" (Num 0).
Definition ROTOR_V : outcome Rotor.t := Rotor.new "VZBRGITYUPSDNHLXAWMJQOFECK" "Z" (Num 0).

Definition REFLECTOR_B : outcome Reflector.t := Reflector.new "YRUHQSLDPXNGOKMIEBFZCWVJAT".
Definition REFLECTOR_C : outcome Reflector.t := Reflector.new "FVPJIAOYEDRZXWGCTKUQSBNMHL".

Inductive RotorType : Type := I | II | III | IV | V.
Inductive ReflectorType : Type := B | C.

Definition ROTOR_CONFIGS (r : RotorType) : outcome Rotor.t :=
  match r with
  | I => ROTOR_I | II => ROTOR_II | III => ROTOR_III | IV => ROTOR_IV | V => ROTOR_V
  end.

Definition REFLECTOR_CONFIGS (r : ReflectorType) : outcome Reflector.t :=
  match r with
  | B => REFLECTOR_B | C => REFLECTOR_C
  end.

(** How the application builds a machine from its settings
    (initEnigma in front/src/components/EnigmaMachine.tsx, and the command
    line test of enigma/enigma.js). *)
Record EnigmaConfig : Type := mkConfig {
  cfg_rotors : RotorType * RotorType * RotorType;
  cfg_reflector : ReflectorType;
  cfg_positions : string * string * string;
  cfg_plugboardPairs : list string
}.

Definition initEnigma (config : EnigmaConfig) : outcome Enigma.t :=
  let '(t0, t1, t2) := cfg_rotors config in
  let '(p0, p1, p2) := cfg_positions config in
  let! r0 := ROTOR_CONFIGS t0 in
  let! r1 := ROTOR_CONFIGS t1 in
  let! r2 := ROTOR_CONFIGS t2 in
  let! reflector := REFLECTOR_CONFIGS (cfg_reflector config) in
  let plugboard := Plugboard.new (cfg_plugboardPairs config) in
  let! enigma := Enigma.new reflector [r0; r1; r2] plugboard in
  match Enigma.setPosicoes [p0; p1; p2] enigma with
  | (Ret _, enigma) => Ret enigma
  | (Throw e, _) => Throw e
  end.

(** ** The plain JavaScript engine (enigma/)

    The classes of enigma/rotor.js, plugboard.js, reflector.js and
    enigma.js are the classes above statement for statement, with error
    messages of their own; the methods that raise nothing of their own are
    shared with them.  The machine of enigma.js enciphers a character
    without recording a signal path. *)

Module EnigmaJS.

Definition Rotor_new (wiring notchChar : string) (posicaoInicial : number)
    : outcome Rotor.t :=
  if negb (String.length wiring =? 26)%nat
  then Throw (Error "Wiring do rotor deve ter 26 letras")
  else
    let w := toUpperCase wiring in
    let! inv := Rotor._calcularInverseWiring w in
    Ret {| Rotor.wiring := w;
           Rotor.notchChar := toUpperCase notchChar;
           Rotor.posicao := rem posicaoInicial n26;
           Rotor.inverseWiring := inv |}.

Definition setPosicaoPorLetra (letra : string) (r : Rotor.t) : outcome unit * Rotor.t :=
  let idx := sub (charCodeAt0 (toUpperCase letra)) n65 in
  if lt idx (Num 0) || gt idx (Num 25)
  then (Throw (Error "Posição inválida"), r)
  else (Ret tt, Rotor.set_posicao r idx).

Definition Reflector_new (wiring : string) : outcome Reflector.t :=
  if negb (String.length wiring =? 26)%nat
  then Throw (Error "Wiring do refletor deve ter 26 letras")
  else Ret {| Reflector.wiring := toUpperCase wiring |}.

Definition new (reflector : Reflector.t) (rotors : list Rotor.t)
    (plugboard : Plugboard.t) : outcome Enigma.t :=
  match rotors with
  | [rotorEsq; rotorMeio; rotorDir] =>
      Ret {| Enigma.reflector := reflector;
             Enigma.rotors := (rotorEsq, rotorMeio, rotorDir);
             Enigma.plugboard := plugboard |}
  | _ => Throw (Error "Use exatamente 3 rotores na versão M3")
  end.

Definition setPosicoes (posicoes : list string) (m : Enigma.t)
    : outcome unit * Enigma.t :=
  match posicoes with
  | [p0; p1; p2] =>
      let '(r0, r1, r2) := Enigma.rotors m in
      match setPosicaoPorLetra p0 r0 with
      | (Throw e, r0) => (Throw e, Enigma.set_rotors m (r0, r1, r2))
      | (Ret _, r0) =>
          match setPosicaoPorLetra p1 r1 with
          | (Throw e, r1) => (Throw e, Enigma.set_rotors m (r0, r1, r2))
          | (Ret _, r1) =>
              match setPosicaoPorLetra p2 r2 with
              | (Throw e, r2) => (Throw e, Enigma.set_rotors m (r0, r1, r2))
              | (Ret _, r2) => (Ret tt, Enigma.set_rotors m (r0, r1, r2))
              end
          end
      end
  | _ => (Throw (Error "São necessárias 3 posições (esq, meio, dir)"), m)
  end.

Definition encipherChar (letra : string) (m : Enigma.t) : outcome value * Enigma.t :=
  let c := toUpperCase letra in
  if negb (includes ALPHABET c)
  then (Ret (str letra), m)
  else
    (* 1. step dos rotores *)
    let m := Enigma._stepRotores m in
    let '(rotor0, rotor1, rotor2) := Enigma.rotors m in
    ((* 2. plugboard (entrada) *)
     let! c := Plugboard.trocar (Enigma.plugboard m) (str c) in
     (* 3. rota: direita -> esquerda *)
     let! c := Rotor.passarParaFrente rotor2 c in
     let! c := Rotor.passarParaFrente rotor1 c in
     let! c := Rotor.passarParaFrente rotor0 c in
     (* 4. refletor *)
     let! c := Reflector.refletir (Enigma.reflector m) c in
     (* 5. volta: esquerda -> direita *)
     let! c := Rotor.passarParaTras rotor0 c in
     let! c := Rotor.passarParaTras rotor1 c in
     let! c := Rotor.passarParaTras rotor2 c in
     (* 6. plugboard (saida) *)
     let! c := Plugboard.trocar (Enigma.plugboard m) c in
     Ret c, m).

(** [resultado += v] *)
Definition to_string (v : value) : string :=
  match v with
  | undefined => "undefined"
  | str s => s
  end.

Fixpoint encipherText_loop (chs : list string) (resultado : string) (m : Enigma.t)
    : outcome string * Enigma.t :=
  match chs with
  | [] => (Ret resultado, m)
  | ch :: chs =>
      match encipherChar ch m with
      | (Ret out, m) => encipherText_loop chs (String.append resultado (to_string out)) m
      | (Throw e, m) => (Throw e, m)
      end
  end.

Definition encipherText (texto : string) (m : Enigma.t) : outcome string * Enigma.t :=
  encipherText_loop (chars texto) EmptyString m.

Definition ROTOR_I : outcome Rotor.t := Rotor_new "EKMFLGDQVZNTOWYHXUSPAIBRCJ" "Q" (Num 0).
Definition ROTOR_II : outcome Rotor.t := Rotor_new "AJDKSIRUXBLHWTMCQGZNPYFVOE" "E" (Num 0).
Definition ROTOR_III : outcome Rotor.t := Rotor_new "BDFHJLCPRTXVZNYEIWGAKMUSQO" "V" (Num 0).
Definition REFLECTOR_B : outcome Reflector.t := Reflector_new "YRUHQSLDPXNGOKMIEBFZCWVJAT".

(** The machine of the command line test: rotors I, II, III, reflector B,
    positions AAA, no plug. *)
Definition montar : outcome Enigma.t :=
  let plugboard := Plugboard.new [] in
  let! reflector := REFLECTOR_B in
  let! r0 := ROTOR_I in
  let! r1 := ROTOR_II in
  let! r2 := ROTOR_III in
  let! enigma := new reflector [r0; r1; r2] plugboard in
  match setPosicoes ["A"; "A"; "A"] enigma with
  | (Ret _, enigma) => Ret enigma
  | (Throw e, _) => Throw e
  end.

(** The command line test, from the text typed to the three texts it
    prints: the text in upper case, its ciphertext, and the ciphertext
    enciphered on a second machine set up alike. *)
Definition cli (textoClaro : string) : outcome (string * string * string) :=
  let textoClaroUpper := toUpperCase textoClaro in
  let! enigma1 := montar in
  let! cifrado := (encipherText textoClaroUpper enigma1).1 in
  let! enigma2 := montar in
  let! decifrado := (encipherText cifrado enigma2).1 in
  Ret (textoClaroUpper, cifrado, decifrado).

End EnigmaJS.

(** ** The state updates of the user interface (front/src/hooks/useEnigma.ts)

    The hook keeps the settings in React state; the functions below are
    the pure updates it applies to that state. *)

Module UseEnigma.

(** The update of [rotatePosition], on the array of position letters
    ([rotateRotor] of front/src/components/EnigmaMachine.tsx computes the
    same array). *)
Definition rotatePosition (index : nat) (direction : Z) (prev : list value)
    : outcome (list value) :=
  let! letra := receiver (default undefined (prev !! index)) in
  let currentPos := sub (charCodeAt0 letra) n65 in
  let newPos := rem (add (add currentPos (Num direction)) n26) n26 in
  let newLetter := at_ ALPHABET newPos in
  let newPositions := prev in
  Ret (<[index := newLetter]> newPositions).

Definition is_capital (c : ascii) : bool :=
  let n := N_of_ascii c in ((65 <=? n) && (n <=? 90))%N.

(** [/^[A-Z]{2}$/.test(p)] *)
Definition two_capitals (p : string) : bool :=
  match p with
  | String a (String b EmptyString) => is_capital a && is_capital b
  | _ => false
  end.

(** The entries [setPlugboardPairs] stores. *)
Definition setPlugboardPairs (pairs : list string) : list string :=
  let validPairs :=
    List.filter (fun p => (String.length p =? 2)%nat && two_capitals p)
                (map toUpperCase pairs) in
  validPairs.

End UseEnigma.

(** ** The position setters of the rewritten engine

    The repository also holds a rewrite of the engine in which the methods
    are called [forward], [backward], [swap], [reflect], [rotate],
    [isAtNotch], [setPosition] and [setPositions].  It steps and routes as
    the code above does.  Its position setter validates its argument
    differently; it is modelled here to be compared with
    [Rotor.setPosicaoPorLetra]. *)

Module Refactored.

Definition ASCII_OFFSET : number := Num 65.

Definition letterToIndex (letter : string) : number :=
  sub (charCodeAt0 letter) ASCII_OFFSET.

Definition isValidLetter (char : string) : bool :=
  (String.length char =? 1)%nat && includes ALPHABET (toUpperCase char).

Record Rotor : Type := mkRotor {
  _id : RotorType;
  _wiring : string;
  _inverseWiring : string;
  _notch : string;
  _position : number
}.

Definition setPosition (letter : string) (r : Rotor) : outcome unit * Rotor :=
  if negb (isValidLetter letter)
  then (Throw (Error (String.append "Invalid position letter: " letter)), r)
  else (Ret tt,
        {| _id := _id r; _wiring := _wiring r; _inverseWiring := _inverseWiring r;
           _notch := _notch r;
           _position := letterToIndex (toUpperCase letter) |}).

(** [Enigma.setPositions], on the three rotors it works on: three calls
    in a row, the first error leaving the method. *)
Definition setPositions (positions : string * string * string)
    (_rotors : Rotor * Rotor * Rotor) : outcome unit * (Rotor * Rotor * Rotor) :=
  let '(p0, p1, p2) := positions in
  let '(r0, r1, r2) := _rotors in
  match setPosition p0 r0 with
  | (Throw e, r0) => (Throw e, (r0, r1, r2))
  | (Ret _, r0) =>
      match setPosition p1 r1 with
      | (Throw e, r1) => (Throw e, (r0, r1, r2))
      | (Ret _, r1) =>
          match setPosition p2 r2 with
          | (Throw e, r2) => (Throw e, (r0, r1, r2))
          | (Ret _, r2) => (Ret tt, (r0, r1, r2))
          end
      end
  end.

(** *** The rest of the rewritten engine *)

Definition ALPHABET_SIZE : number := Num 26.

Definition indexToLetter (index : number) : value :=
  at_ ALPHABET (rem (add (rem index ALPHABET_SIZE) ALPHABET_SIZE) ALPHABET_SIZE).

Definition normalizeIndex (index : number) : number :=
  rem (add (rem index ALPHABET_SIZE) ALPHABET_SIZE) ALPHABET_SIZE.

Record RotorConfig : Type := mkRotorConfig {
  rotor_id : RotorType;
  rotor_wiring : string;
  rotor_notch : string
}.

Record ReflectorConfig : Type := mkReflectorConfig {
  reflector_id : ReflectorType;
  reflector_wiring : string
}.

Definition set_position (r : Rotor) (p : number) : Rotor :=
  {| _id := _id r; _wiring := _wiring r; _inverseWiring := _inverseWiring r;
     _notch := _notch r; _position := p |}.

Definition Rotor_validateWiring (wiring : string) : outcome unit :=
  if negb (String.length wiring =? 26)%nat
  then Throw (Error "Rotor wiring must have exactly 26 letters")
  else Ret tt.

Definition computeInverseWiring (_wiring : string) : outcome string :=
  let! inverse := foldl (fun acc i =>
                           let! inverse := acc in
                           let! outputLetter := receiver (at_ _wiring (Num i)) in
                           let outputIndex := letterToIndex outputLetter in
                           Ret (array_set inverse outputIndex (indexToLetter (Num i))))
                        (Ret (new_Array 26)) (seqZ 0 26) in
  Ret (join inverse).

Definition Rotor_new (config : RotorConfig) (initialPosition : number) : outcome Rotor :=
  let! _ := Rotor_validateWiring (rotor_wiring config) in
  let w := toUpperCase (rotor_wiring config) in
  let! inv := computeInverseWiring w in
  Ret {| _id := rotor_id config;
         _wiring := w;
         _inverseWiring := inv;
         _notch := toUpperCase (rotor_notch config);
         _position := normalizeIndex initialPosition |}.

Definition positionLetter (r : Rotor) : value := indexToLetter (_position r).

Definition rotate (r : Rotor) : Rotor :=
  set_position r (normalizeIndex (add (_position r) (Num 1))).

Definition isAtNotch (r : Rotor) : bool := strict_eq (positionLetter r) (_notch r).

Definition forward (r : Rotor) (inputLetter : value) : outcome value :=
  let! l := receiver inputLetter in
  let inputIndex := letterToIndex l in
  let offsetIndex := normalizeIndex (add inputIndex (_position r)) in
  let! outputLetter := receiver (at_ (_wiring r) offsetIndex) in
  let outputIndex := letterToIndex outputLetter in
  let finalIndex := normalizeIndex (sub outputIndex (_position r)) in
  Ret (indexToLetter finalIndex).

Definition backward (r : Rotor) (inputLetter : value) : outcome value :=
  let! l := receiver inputLetter in
  let inputIndex := letterToIndex l in
  let offsetIndex := normalizeIndex (add inputIndex (_position r)) in
  let! outputLetter := receiver (at_ (_inverseWiring r) offsetIndex) in
  let outputIndex := letterToIndex outputLetter in
  let finalIndex := normalizeIndex (sub outputIndex (_position r)) in
  Ret (indexToLetter finalIndex).


Record Reflector : Type := mkReflector {
  _reflector_id : ReflectorType;
  _reflector_wiring : string
}.

Definition Reflector_validateWiring (wiring : string) : outcome unit :=
  if negb (String.length wiring =? 26)%nat
  then Throw (Error "Reflector wiring must have exactly 26 letters")
  else Ret tt.

Definition Reflector_new (config : ReflectorConfig) : outcome Reflector :=
  let! _ := Reflector_validateWiring (reflector_wiring config) in
  Ret {| _reflector_id := reflector_id config;
         _reflector_wiring := toUpperCase (reflector_wiring config) |}.

Definition reflect (r : Reflector) (inputLetter : value) : outcome value :=
  let! l := receiver inputLetter in
  let index := letterToIndex l in
  Ret (at_ (_reflector_wiring r) index).

Record Plugboard : Type := mkPlugboard {
  _mappings : gmap string string;
  _pairs : list string
}.

Definition buildMappings (pairs : list string) : gmap string string :=
  let mappings := foldl (fun mappings letter => <[letter := letter]> mappings)
                        ∅ (chars ALPHABET) in
  foldl (fun mappings pair =>
           match pair with
           | String x (String y EmptyString) =>
               let a := toUpperCase (String x EmptyString) in
               let b := toUpperCase (String y EmptyString) in
               if negb (isValidLetter a) || negb (isValidLetter b)
               then mappings
               else <[b := a]> (<[a := b]> mappings)
           | _ => mappings
           end) mappings pairs.

Definition Plugboard_new (pairs : list string) : Plugboard :=
  {| _pairs := pairs; _mappings := buildMappings pairs |}.

Definition swap (p : Plugboard) (letter : value) : outcome value :=
  let! l := receiver letter in
  let upperLetter := toUpperCase l in
  Ret (str (default upperLetter (_mappings p !! upperLetter))).

(** [get] gives [undefined] for a key the map does not hold, and
    [undefined !== upperLetter]. *)
Definition isConnected (p : Plugboard) (letter : string) : bool :=
  let upperLetter := toUpperCase letter in
  match _mappings p !! upperLetter with
  | Some l => negb (String.eqb l upperLetter)
  | None => true
  end.

(** [SignalTracer.record], on the array of steps: [letterToIndex] is
    called on both letters before the step is pushed. *)
Definition record (component : Component) (inputLetter outputLetter : value)
    (_steps : list SignalStep) : outcome (list SignalStep) :=
  let! i := receiver inputLetter in
  let! o := receiver outputLetter in
  Ret (_steps ++ [{| component := component;
                     step_inputLetter := i;
                     step_outputLetter := o;
                     inputIndex := letterToIndex i;
                     outputIndex := letterToIndex o |}]).

Definition build (inputLetter outputLetter : string) (_steps : list SignalStep)
    : SignalPath :=
  {| steps := _steps; inputLetter := inputLetter; outputLetter := outputLetter |}.

Record Enigma : Type := mkEnigma {
  _rotors : Rotor * Rotor * Rotor;
  _reflector : Reflector;
  _plugboard : Plugboard
}.

Definition set_rotors (m : Enigma) (rs : Rotor * Rotor * Rotor) : Enigma :=
  {| _rotors := rs; _reflector := _reflector m; _plugboard := _plugboard m |}.

Definition getPositions (m : Enigma) : value * value * value :=
  let '(r0, r1, r2) := _rotors m in
  (positionLetter r0, positionLetter r1, positionLetter r2).

Definition stepRotors (m : Enigma) : Enigma :=
  let '(leftRotor, middleRotor, rightRotor) := _rotors m in
  let middleAtNotch := isAtNotch middleRotor in
  let rightAtNotch := isAtNotch rightRotor in
  let '(middleRotor, leftRotor) :=
    if middleAtNotch then (rotate middleRotor, rotate leftRotor)
    else (middleRotor, leftRotor) in
  let middleRotor := if rightAtNotch then rotate middleRotor else middleRotor in
  let rightRotor := rotate rightRotor in
  set_rotors m (leftRotor, middleRotor, rightRotor).

(** The routing of a letter once the rotors have stepped; a stage result
    that [record] has taken is a string. *)
Definition trace (m : Enigma) (signal : string) : outcome SignalPath :=
  let '(rotor0, rotor1, rotor2) := _rotors m in
  let originalInput := signal in
  let signal := str signal in
  let! tracer := record input signal signal [] in
  let! afterPlugboardIn := swap (_plugboard m) signal in
  let! tracer := record plugboard_in signal afterPlugboardIn tracer in
  let signal := afterPlugboardIn in
  let! afterRotorR := forward rotor2 signal in
  let! tracer := record rotor_r signal afterRotorR tracer in
  let signal := afterRotorR in
  let! afterRotorM := forward rotor1 signal in
  let! tracer := record rotor_m signal afterRotorM tracer in
  let signal := afterRotorM in
  let! afterRotorL := forward rotor0 signal in
  let! tracer := record rotor_l signal afterRotorL tracer in
  let signal := afterRotorL in
  let! afterReflector := reflect (_reflector m) signal in
  let! tracer := record reflector_ signal afterReflector tracer in
  let signal := afterReflector in
  let! afterRotorLBack := backward rotor0 signal in
  let! tracer := record rotor_l_back signal afterRotorLBack tracer in
  let signal := afterRotorLBack in
  let! afterRotorMBack := backward rotor1 signal in
  let! tracer := record rotor_m_back signal afterRotorMBack tracer in
  let signal := afterRotorMBack in
  let! afterRotorRBack := backward rotor2 signal in
  let! tracer := record rotor_r_back signal afterRotorRBack tracer in
  let signal := afterRotorRBack in
  let! afterPlugboardOut := swap (_plugboard m) signal in
  let! tracer := record plugboard_out signal afterPlugboardOut tracer in
  let signal := afterPlugboardOut in
  let! tracer := record output signal signal tracer in
  let! signal := receiver signal in
  Ret (build originalInput signal tracer).

Definition encipherCharWithPath (char : string) (m : Enigma)
    : outcome SignalPath * Enigma :=
  let signal := toUpperCase char in
  if negb (isValidLetter signal)
  then (Ret {| steps := []; inputLetter := char; outputLetter := char |}, m)
  else
    let m := stepRotors m in
    (trace m signal, m).

Definition encipherChar (char : string) (m : Enigma) : outcome string * Enigma :=
  let '(result, m) := encipherCharWithPath char m in
  (let! result := result in Ret (outputLetter result), m).

(** [text.split("").map(...)]: the characters in order, the first error
    leaving the loop. *)
Fixpoint encipherText_map (chs : list string) (m : Enigma)
    : outcome (list string) * Enigma :=
  match chs with
  | [] => (Ret [], m)
  | char :: chs =>
      match encipherChar char m with
      | (Ret out, m) =>
          let '(rest, m) := encipherText_map chs m in
          (let! rest := rest in Ret (out :: rest), m)
      | (Throw e, m) => (Throw e, m)
      end
  end.

Definition encipherText (text : string) (m : Enigma) : outcome string * Enigma :=
  let '(outs, m) := encipherText_map (chars text) m in
  (let! outs := outs in Ret (String.concat EmptyString outs), m).

Module RotorFactory.

Definition CONFIGS (id : RotorType) : RotorConfig :=
  match id with
  | I => mkRotorConfig I "EKMFLGDQVZNTOWYHXUSPAIBRCJ" "Q"
  | II => mkRotorConfig II "AJDKSIRUXBLHWTMCQGZNPYFVOE" "E"
  | III => mkRotorConfig III "BDFHJLCPRTXVZNYEIWGAKMUSQO" "V"
  | IV => mkRotorConfig IV "ESOVPZJAYQUIRHXLNFTGKDCMWB" "J"
  | V => mkRotorConfig V "VZBRGITYUPSDNHLXAWMJQOFECK" "Z"
  end.

Definition create (id : RotorType) (position : string) : outcome Rotor :=
  let config := CONFIGS id in
  Rotor_new config (letterToIndex position).

End RotorFactory.

Module ReflectorFactory.

Definition CONFIGS (id : ReflectorType) : ReflectorConfig :=
  match id with
  | B => mkReflectorConfig B "YRUHQSLDPXNGOKMIEBFZCWVJAT"
  | C => mkReflectorConfig C "FVPJIAOYEDRZXWGCTKUQSBNMHL"
  end.

Definition create (id : ReflectorType) : outcome Reflector :=
  Reflector_new (CONFIGS id).

End ReflectorFactory.

Module EnigmaFactory.

(** [EnigmaSettings] has the fields of [EnigmaConfig]. *)
Definition create (settings : EnigmaConfig) : outcome Enigma :=
  let '(t0, t1, t2) := cfg_rotors settings in
  let '(p0, p1, p2) := cfg_positions settings in
  let! r0 := RotorFactory.create t0 p0 in
  let! r1 := RotorFactory.create t1 p1 in
  let! r2 := RotorFactory.create t2 p2 in
  let! reflector := ReflectorFactory.create (cfg_reflector settings) in
  let plugboard := Plugboard_new (cfg_plugboardPairs settings) in
  Ret {| _rotors := (r0, r1, r2); _reflector := reflector; _plugboard := plugboard |}.

Definition createDefault : outcome Enigma :=
  create {| cfg_rotors := (I, II, III); cfg_reflector := B;
            cfg_positions := ("A", "A", "A"); cfg_plugboardPairs := [] |}.

End EnigmaFactory.

End Refactored.

(** ** Vocabulary of the statements *)

(** The letter of index [k], for [0 <= k < 26]. *)
Definition letter (k : Z) : string :=
  String (ascii_of_N (Z.to_N (65 + k))) EmptyString.

(** The index of a one-character string ([-1] for any other string). *)
Definition index_of (s : string) : Z :=
  match s with
  | String c EmptyString => Z.of_N (N_of_ascii c) - 65
  | _ => -1
  end.

(** The indices of the alphabet. *)
Definition in_range (k : Z) : bool := (0 <=? k) && (k <? 26).

(** A wiring read as a table on indices. *)
Definition tbl (w : string) (k : Z) : Z :=
  match at_ w (Num k) with
  | str l => index_of l
  | undefined => -1
  end.

(** The first 26 entries of the table are letters. *)
Definition lettersb (w : string) : bool :=
  forallb (fun k => in_range (tbl w k)) (seqZ 0 26).

(** The table [w'] undoes the table [w]. *)
Definition inverseb (w w' : string) : bool :=
  forallb (fun k => tbl w' (tbl w k) =? k) (seqZ 0 26).

(** The wiring is a permutation of the alphabet. *)
Definition permutation_of_alphabet (w : string) : Prop :=
  chars w ≡ₚ chars ALPHABET.

(** A rotor in working order: its window shows a letter and its two tables
    are letter tables, inverse of each other. *)
Definition rotor_ok (r : Rotor.t) : bool :=
  match Rotor.posicao r with
  | Num p => in_range p
  | NaN => false
  end
  && lettersb (Rotor.wiring r) && lettersb (Rotor.inverseWiring r)
  && inverseb (Rotor.wiring r) (Rotor.inverseWiring r)
  && inverseb (Rotor.inverseWiring r) (Rotor.wiring r).

(** The plugboard map read as a table on indices. *)
Definition plug (p : Plugboard.t) (k : Z) : Z :=
  match Plugboard.mapa p !! letter k with
  | Some s => index_of s
  | None => -1
  end.

(** The plugboard sends letters to letters ... *)
Definition plugboard_ok (p : Plugboard.t) : bool :=
  forallb (fun k => in_range (plug p k)) (seqZ 0 26).

(** ... and back. *)
Definition plugboard_involutive (p : Plugboard.t) : bool :=
  forallb (fun k => plug p (plug p k) =? k) (seqZ 0 26).

(** A machine whose parts are in working order; every machine that
    [initEnigma] builds on three position letters is one, and stays one
    while it enciphers. *)
Definition machine_ok (m : Enigma.t) : bool :=
  let '(r0, r1, r2) := Enigma.rotors m in
  rotor_ok r0 && rotor_ok r1 && rotor_ok r2
  && lettersb (Reflector.wiring (Enigma.reflector m))
  && plugboard_ok (Enigma.plugboard m).

(** ... and whose reflector and plugboard are involutions. *)
Definition machine_reciprocal (m : Enigma.t) : bool :=
  machine_ok m
  && inverseb (Reflector.wiring (Enigma.reflector m))
              (Reflector.wiring (Enigma.reflector m))
  && plugboard_involutive (Enigma.plugboard m).

(** The pair a plugboard entry contributes, as the constructor reads it. *)
Definition accepted (par : string) : option (string * string) :=
  match par with
  | String x (String y EmptyString) =>
      let a := toUpperCase (String x EmptyString) in
      let b := toUpperCase (String y EmptyString) in
      if negb (includes ALPHABET a) || negb (includes ALPHABET b) then None
      else Some (a, b)
  | _ => None
  end.

(** Two pairs without a common letter. *)
Definition apart (p q : string * string) : bool :=
  negb (String.eqb (fst p) (fst q)) && negb (String.eqb (fst p) (snd q))
  && negb (String.eqb (snd p) (fst q)) && negb (String.eqb (snd p) (snd q)).

Fixpoint pairwise_apart (l : list (string * string)) : bool :=
  match l with
  | [] => true
  | p :: l' => forallb (apart p) l' && pairwise_apart l'
  end.

(** No letter is used by two entries of the pair list. *)
Definition no_letter_reused (pares : list string) : bool :=
  pairwise_apart (omap accepted pares).

(** One letter of the alphabet, in either case. *)
Definition alphabet_letter (s : string) : Prop :=
  toUpperCase s ∈ chars ALPHABET.

(** The positions of the three rotors. *)
Definition positions (m : Enigma.t) : number * number * number :=
  let '(r0, r1, r2) := Enigma.rotors m in
  (Rotor.posicao r0, Rotor.posicao r1, Rotor.posicao r2).

(** Enciphering [texto] on a machine built from [config]. *)
Definition encipher (config : EnigmaConfig) (texto : string) : outcome string :=
  let! m := initEnigma config in
  fst (Enigma.encipherText texto m).

(** What a table does to index [k] of a rotor turned to position [p]. *)
Definition via (w : string) (p k : Z) : Z :=
  (tbl w ((k + p) mod 26) - p) mod 26.

(** [rotor_ok], unfolded: the rotor [r] stands at position [p]. *)
Record rotor_facts (r : Rotor.t) (p : Z) : Prop := {
  rf_pos : Rotor.posicao r = Num p;
  rf_range : 0 <= p < 26;
  rf_w : lettersb (Rotor.wiring r) = true;
  rf_i : lettersb (Rotor.inverseWiring r) = true;
  rf_wi : inverseb (Rotor.wiring r) (Rotor.inverseWiring r) = true;
  rf_iw : inverseb (Rotor.inverseWiring r) (Rotor.wiring r) = true
}.

(** The map after the identity initialisation. *)
Definition mapa0 : gmap string string :=
  foldl (fun mapa letra => <[letra := letra]> mapa) ∅ (chars ALPHABET).

(** What an accepted pair does to the map. *)
Definition connect (mapa : gmap string string) (ab : string * string)
    : gmap string string :=
  <[ab.2 := ab.1]> (<[ab.1 := ab.2]> mapa).

(** The map sends letters to letters ... *)
Definition letter_map (m : gmap string string) : Prop :=
  forall k, 0 <= k < 26 -> exists j, 0 <= j < 26 /\ m !! letter k = Some (letter j).

(** ... and back. *)
Definition involutive_map (m : gmap string string) : Prop :=
  forall k, 0 <= k < 26 ->
    exists j, 0 <= j < 26 /\ m !! letter k = Some (letter j)
                          /\ m !! letter j = Some (letter k).

(** The position of a rotor, as an integer. *)
Definition pos (r : Rotor.t) : Z :=
  match Rotor.posicao r with
  | Num p => p
  | NaN => 0
  end.

(** The substitution the routing performs, on indices. *)
Definition cipher (m : Enigma.t) (k : Z) : Z :=
  let '(r0, r1, r2) := Enigma.rotors m in
  let c := plug (Enigma.plugboard m) k in
  let c := via (Rotor.wiring r2) (pos r2) c in
  let c := via (Rotor.wiring r1) (pos r1) c in
  let c := via (Rotor.wiring r0) (pos r0) c in
  let c := tbl (Reflector.wiring (Enigma.reflector m)) c in
  let c := via (Rotor.inverseWiring r0) (pos r0) c in
  let c := via (Rotor.inverseWiring r1) (pos r1) c in
  let c := via (Rotor.inverseWiring r2) (pos r2) c in
  plug (Enigma.plugboard m) c.

(** The character of the letter of index [k]. *)
Definition letter_ascii (k : Z) : ascii := ascii_of_N (Z.to_N (65 + k)).

(** What [encipherText] computes on a machine in working order. *)
Fixpoint text_spec (m : Enigma.t) (s : string) : string * Enigma.t :=
  match s with
  | EmptyString => (EmptyString, m)
  | String a s' =>
      let c := toUpperCase (String a EmptyString) in
      if includes ALPHABET c then
        let m' := Enigma._stepRotores m in
        let out := letter_ascii (cipher m' (index_of c)) in
        (String out (text_spec m' s').1, (text_spec m' s').2)
      else (String a (text_spec m s').1, (text_spec m s').2)
  end.

(** The settings the application starts with. *)
Definition default_config : EnigmaConfig :=
  mkConfig (I, II, III) B ("A", "A", "A") [].

(** The three starting positions are letters. *)
Definition letter_positions (config : EnigmaConfig) : Prop :=
  let '(p0, p1, p2) := cfg_positions config in
  alphabet_letter p0 /\ alphabet_letter p1 /\ alphabet_letter p2.

(** Enciphering a text, then enciphering the result on a second machine
    built from the same settings. *)
Definition round_trip (config : EnigmaConfig) (texto : string) : outcome string :=
  let! cifrado := encipher config texto in
  encipher config cifrado.

(** The stepping rule in the words of the specification: how many times
    each rotor turns, decided on the positions before the keystroke. *)
Definition stepping_spec (m : Enigma.t) : Enigma.t :=
  let '(leftRotor, middleRotor, rightRotor) := Enigma.rotors m in
  let middleAtNotch := Rotor.estaNoNotch middleRotor in
  let rightAtNotch := Rotor.estaNoNotch rightRotor in
  Enigma.set_rotors m
    (Nat.iter (Nat.b2n middleAtNotch) Rotor.girar leftRotor,
     Nat.iter (Nat.b2n middleAtNotch + Nat.b2n rightAtNotch) Rotor.girar middleRotor,
     Rotor.girar rightRotor).

(** The machine of the settings, one keystroke later. *)
Definition positions_after_key (config : EnigmaConfig) (key : string)
    : outcome (list value) :=
  let! m := initEnigma config in
  Ret (Enigma.getPosicoes (Enigma.encipherChar key m).2).

(** The canonical reflector wirings. *)
Definition reflector_wiring (t : ReflectorType) : string :=
  match t with
  | B => "YRUHQSLDPXNGOKMIEBFZCWVJAT"
  | C => "FVPJIAOYEDRZXWGCTKUQSBNMHL"
  end.

(** [swap(swap(x))] *)
Definition trocar_twice (p : Plugboard.t) (x : string) : outcome value :=
  let! y := Plugboard.trocar p (str x) in
  Plugboard.trocar p y.

(** The machine of the default settings. *)
Definition default_machine : Enigma.t :=
  Enigma.mk
    (Reflector.mk "YRUHQSLDPXNGOKMIEBFZCWVJAT")
    (Rotor.mk "EKMFLGDQVZNTOWYHXUSPAIBRCJ" "Q" (Num 0) "UWYGADFPVZBECKMTHXSLRINQOJ",
     Rotor.mk "AJDKSIRUXBLHWTMCQGZNPYFVOE" "E" (Num 0) "AJPCZWRLFBDKOTYUQGENHXMIVS",
     Rotor.mk "BDFHJLCPRTXVZNYEIWGAKMUSQO" "V" (Num 0) "TAGBPCSDQEUFVNZHYIXJWLRKOM")
    (Plugboard.new []).

(** The lowercase letters. *)
Definition lowercase : string := "abcdefghijklmnopqrstuvwxyz".

(** ** Vocabulary of the further properties *)

(** The table sends no index to itself. *)
Definition no_fixed_point (w : string) : bool :=
  forallb (fun k => negb (tbl w k =? k)) (seqZ 0 26).



(** The signal path of the letter of index [k] through the machine [m],
    stage by stage. *)
Definition path_of (m : Enigma.t) (k : Z) : SignalPath :=
  let '(r0, r1, r2) := Enigma.rotors m in
  let a := plug (Enigma.plugboard m) k in
  let b := via (Rotor.wiring r2) (pos r2) a in
  let c := via (Rotor.wiring r1) (pos r1) b in
  let d := via (Rotor.wiring r0) (pos r0) c in
  let e := tbl (Reflector.wiring (Enigma.reflector m)) d in
  let f := via (Rotor.inverseWiring r0) (pos r0) e in
  let g := via (Rotor.inverseWiring r1) (pos r1) f in
  let h := via (Rotor.inverseWiring r2) (pos r2) g in
  let o := plug (Enigma.plugboard m) h in
  let st comp x y := Enigma.step_of comp (letter x) (letter y) in
  {| steps := [st input k k; st plugboard_in k a; st rotor_r a b;
               st rotor_m b c; st rotor_l c d; st reflector_ d e;
               st rotor_l_back e f; st rotor_m_back f g; st rotor_r_back g h;
               st plugboard_out h o; st output o o];
     inputLetter := letter k;
     outputLetter := letter o |}.

(** The machine [m] with its rotors turned to the positions [ps]. *)
Definition at_positions (m : Enigma.t) (ps : number * number * number) : Enigma.t :=
  let '(r0, r1, r2) := Enigma.rotors m in
  let '(p0, p1, p2) := ps in
  Enigma.set_rotors m
    (Rotor.set_posicao r0 p0, Rotor.set_posicao r1 p1, Rotor.set_posicao r2 p2).


(** A rotor, a reflector, a plugboard and a machine of the rewritten
    engine, read as those of the engine it rewrites. *)
Definition legacy_rotor (r : Refactored.Rotor) : Rotor.t :=
  {| Rotor.wiring := Refactored._wiring r;
     Rotor.notchChar := Refactored._notch r;
     Rotor.posicao := Refactored._position r;
     Rotor.inverseWiring := Refactored._inverseWiring r |}.





(** The small letter of index [k], for [0 <= k < 26]. *)
Definition small_letter (k : Z) : string :=
  String (ascii_of_N (Z.to_N (97 + k))) EmptyString.
(** * Proofs *)

(** A decidable statement about the 26 letters, or about one concrete
    machine, is settled by evaluation. *)
Ltac by_compute := apply (bool_decide_unpack _); vm_compute; exact Logic.I.

(** ** Basic facts *)

Lemma range26 (P : Z -> Prop) :
  Forall P (seqZ 0 26) -> forall k, 0 <= k < 26 -> P k.
Proof.
  intros H k Hk. rewrite Forall_forall in H. apply H.
  apply elem_of_seqZ. lia.
Qed.

Lemma forallb_range26 (f : Z -> bool) :
  forallb f (seqZ 0 26) = true -> forall k, 0 <= k < 26 -> f k = true.
Proof.
  intros H k Hk. rewrite forallb_forall in H. apply H.
  apply list_elem_of_In, elem_of_seqZ. lia.
Qed.

Lemma in_range_spec k : in_range k = true <-> 0 <= k < 26.
Proof. unfold in_range. rewrite andb_true_iff, Z.leb_le, Z.ltb_lt. tauto. Qed.

Lemma charCodeAt0_letter k :
  0 <= k < 26 -> charCodeAt0 (letter k) = Num (65 + k).
Proof.
  intros Hk. unfold letter, charCodeAt0. f_equal.
  rewrite N_ascii_embedding by lia. lia.
Qed.

Lemma index_of_letter k : 0 <= k < 26 -> index_of (letter k) = k.
Proof.
  intros Hk. unfold letter, index_of.
  rewrite N_ascii_embedding by lia. lia.
Qed.

Lemma letter_index_of s : 0 <= index_of s < 26 -> s = letter (index_of s).
Proof.
  destruct s as [|c [|??]]; simpl; try lia. intros H. unfold letter.
  replace (Z.to_N (65 + (Z.of_N (N_of_ascii c) - 65))) with (N_of_ascii c) by lia.
  by rewrite ascii_N_embedding.
Qed.

Lemma at_ALPHABET k : 0 <= k < 26 -> at_ ALPHABET (Num k) = str (letter k).
Proof.
  revert k. apply range26. by_compute.
Qed.

Lemma letter_inj j k : 0 <= j < 26 -> 0 <= k < 26 -> letter j = letter k -> j = k.
Proof.
  intros Hj Hk H. apply (f_equal index_of) in H.
  by rewrite !index_of_letter in H.
Qed.

Lemma in_alphabet x :
  x ∈ chars ALPHABET <-> exists k, 0 <= k < 26 /\ x = letter k.
Proof.
  split.
  - intros H%list_elem_of_In. exists (index_of x). simpl in H.
    repeat (destruct H as [<-|H]; [by vm_compute|]). done.
  - intros (k & Hk & ->). revert k Hk. apply range26. by_compute.
Qed.

(** ** Rotors *)

Lemma lettersb_at w k :
  lettersb w = true -> 0 <= k < 26 ->
  at_ w (Num k) = str (letter (tbl w k)) /\ 0 <= tbl w k < 26.
Proof.
  intros Hw Hk. apply forallb_range26 with (k := k) in Hw; [|done].
  apply in_range_spec in Hw. split; [|done]. revert Hw. unfold tbl.
  destruct (at_ w (Num k)) as [|l]; [lia|].
  intros Hl. by rewrite <- letter_index_of.
Qed.

Lemma inverseb_tbl w w' k :
  inverseb w w' = true -> 0 <= k < 26 -> tbl w' (tbl w k) = k.
Proof.
  intros H Hk. unfold inverseb in H.
  apply forallb_range26 with (k := k) in H; [|done]. lia.
Qed.

Lemma rem_offset k p :
  0 <= k < 26 -> 0 <= p < 26 ->
  rem (add (add (sub (Num (65 + k)) n65) (Num p)) n26) n26 = Num ((k + p) mod 26).
Proof.
  intros Hk Hp. cbn. f_equal. rewrite Z.rem_mod_nonneg by lia.
  replace (65 + k - 65 + p + 26) with (k + p + 1 * 26) by lia.
  by rewrite Z.mod_add.
Qed.

Lemma rem_final j p :
  0 <= j < 26 -> 0 <= p < 26 ->
  rem (add (sub (sub (Num (65 + j)) n65) (Num p)) n26) n26 = Num ((j - p) mod 26).
Proof.
  intros Hj Hp. cbn. f_equal. rewrite Z.rem_mod_nonneg by lia.
  replace (65 + j - 65 - p + 26) with (j - p + 1 * 26) by lia.
  by rewrite Z.mod_add.
Qed.

Lemma via_range w p k : 0 <= via w p k < 26.
Proof. unfold via. apply Z.mod_pos_bound. lia. Qed.

(** Both directions of a rotor are the same walk, through one table or
    the other. *)
Lemma walk_letter w p k :
  lettersb w = true -> 0 <= p < 26 -> 0 <= k < 26 ->
  (let! l := receiver (str (letter k)) in
   let idxEntrada := sub (charCodeAt0 l) n65 in
   let idxComOffset := rem (add (add idxEntrada (Num p)) n26) n26 in
   let! letraSaida := receiver (at_ w idxComOffset) in
   let idxSaida := sub (charCodeAt0 letraSaida) n65 in
   let idxFinal := rem (add (sub idxSaida (Num p)) n26) n26 in
   Ret (at_ ALPHABET idxFinal)) = Ret (str (letter (via w p k))).
Proof.
  intros Hw Hp Hk. cbn [receiver bind].
  rewrite charCodeAt0_letter, rem_offset by done.
  assert (Ha : 0 <= (k + p) mod 26 < 26) by (apply Z.mod_pos_bound; lia).
  destruct (lettersb_at w _ Hw Ha) as [-> Hj]. cbn [receiver bind].
  rewrite charCodeAt0_letter, rem_final by done.
  rewrite at_ALPHABET; [done|]. apply Z.mod_pos_bound. lia.
Qed.

Lemma passarParaFrente_letter r p k :
  Rotor.posicao r = Num p -> lettersb (Rotor.wiring r) = true ->
  0 <= p < 26 -> 0 <= k < 26 ->
  Rotor.passarParaFrente r (str (letter k))
  = Ret (str (letter (via (Rotor.wiring r) p k))).
Proof.
  intros Hpos Hw Hp Hk. unfold Rotor.passarParaFrente. rewrite Hpos.
  by apply walk_letter.
Qed.

Lemma passarParaTras_letter r p k :
  Rotor.posicao r = Num p -> lettersb (Rotor.inverseWiring r) = true ->
  0 <= p < 26 -> 0 <= k < 26 ->
  Rotor.passarParaTras r (str (letter k))
  = Ret (str (letter (via (Rotor.inverseWiring r) p k))).
Proof.
  intros Hpos Hw Hp Hk. unfold Rotor.passarParaTras. rewrite Hpos.
  by apply walk_letter.
Qed.

Lemma via_inverse w w' p k :
  lettersb w = true -> inverseb w w' = true ->
  0 <= p < 26 -> 0 <= k < 26 -> via w' p (via w p k) = k.
Proof.
  intros Hw Hinv Hp Hk. unfold via.
  assert (Ha : 0 <= (k + p) mod 26 < 26) by (apply Z.mod_pos_bound; lia).
  destruct (lettersb_at w _ Hw Ha) as [_ Hj].
  set (j := tbl w ((k + p) mod 26)) in *.
  replace (((j - p) mod 26 + p) mod 26) with j.
  - unfold j. rewrite (inverseb_tbl w w') by done.
    rewrite Zminus_mod_idemp_l. replace (k + p - p) with k by lia.
    apply Z.mod_small. lia.
  - rewrite Zplus_mod_idemp_l. replace (j - p + p) with j by lia.
    symmetry. apply Z.mod_small. lia.
Qed.

Lemma rotor_ok_facts r : rotor_ok r = true <-> exists p, rotor_facts r p.
Proof.
  unfold rotor_ok. rewrite !andb_true_iff. split.
  - intros [[[[Hp ?] ?] ?] ?]. destruct (Rotor.posicao r) as [|p] eqn:E; [done|].
    exists p. split; try done. by apply in_range_spec.
  - intros [p []]. repeat split; try done.
    rewrite rf_pos0. by apply in_range_spec.
Qed.

Lemma rotor_ok_girar r : rotor_ok r = true -> rotor_ok (Rotor.girar r) = true.
Proof.
  rewrite !rotor_ok_facts. intros [p []].
  exists ((p + 1) mod 26). split; try done.
  - cbn. rewrite rf_pos0. cbn. f_equal. apply Z.rem_mod_nonneg; lia.
  - apply Z.mod_pos_bound. lia.
Qed.

Lemma rotor_ok_set_posicao r k :
  rotor_ok r = true -> 0 <= k < 26 -> rotor_ok (Rotor.set_posicao r (Num k)) = true.
Proof.
  rewrite !rotor_ok_facts. intros [p []] Hk. exists k. by split.
Qed.

Lemma toUpperCase_letter k : 0 <= k < 26 -> toUpperCase (letter k) = letter k.
Proof. revert k. apply range26. by_compute. Qed.

Lemma setPosicaoPorLetra_letter l r :
  alphabet_letter l ->
  exists k, 0 <= k < 26 /\ toUpperCase l = letter k /\
    Rotor.setPosicaoPorLetra l r = (Ret tt, Rotor.set_posicao r (Num k)).
Proof.
  intros (k & Hk & E)%in_alphabet. exists k. split; [done|]. split; [done|].
  unfold Rotor.setPosicaoPorLetra. rewrite E, charCodeAt0_letter by done.
  cbn. replace (65 + k - 65) with k by lia.
  destruct (k <? 0) eqn:E1; [lia|]. destruct (25 <? k) eqn:E2; [lia|]. done.
Qed.

(** ** A rotor built on a permutation of the alphabet *)

Lemma length_chars s : length (chars s) = String.length s.
Proof. induction s; simpl; congruence. Qed.

Lemma length_toUpperCase s : String.length (toUpperCase s) = String.length s.
Proof. induction s; simpl; congruence. Qed.

Lemma get_chars s (n : nat) :
  chars s !! n = (fun c => String c EmptyString) <$> String.get n s.
Proof.
  revert n. induction s as [|c s IH]; intros [|n]; simpl; try done.
Qed.

Lemma at_chars s k :
  0 <= k -> at_ s (Num k) = from_option str undefined (chars s !! Z.to_nat k).
Proof.
  intros Hk. unfold at_. destruct (k <? 0) eqn:E; [lia|].
  rewrite get_chars. by destruct (String.get _ s).
Qed.

Lemma forallb_range26_intro (f : Z -> bool) :
  (forall k, 0 <= k < 26 -> f k = true) -> forallb f (seqZ 0 26) = true.
Proof.
  intros H. apply forallb_forall. intros k Hk%list_elem_of_In%elem_of_seqZ.
  apply H. lia.
Qed.

Section permutation.

Variable W : string.
Hypothesis HW : chars W ≡ₚ chars ALPHABET.

Lemma perm_length : String.length W = 26%nat.
Proof. rewrite <- length_chars. by rewrite HW. Qed.

Lemma perm_lookup k :
  0 <= k < 26 ->
  chars W !! Z.to_nat k = Some (letter (tbl W k)) /\ 0 <= tbl W k < 26.
Proof.
  intros Hk. destruct (lookup_lt_is_Some_2 (chars W) (Z.to_nat k)) as [l Hl].
  { rewrite length_chars, perm_length. lia. }
  assert (Hin : l ∈ chars ALPHABET).
  { rewrite <- HW. by eapply list_elem_of_lookup_2. }
  apply in_alphabet in Hin as (j & Hj & ->).
  unfold tbl. rewrite at_chars, Hl by lia. cbn [from_option].
  by rewrite index_of_letter.
Qed.

Lemma perm_lettersb : lettersb W = true.
Proof.
  apply forallb_range26_intro. intros k Hk. apply in_range_spec.
  by apply perm_lookup.
Qed.

Lemma perm_inj i j :
  0 <= i < 26 -> 0 <= j < 26 -> tbl W i = tbl W j -> i = j.
Proof.
  intros Hi Hj E.
  destruct (perm_lookup i Hi) as [Li _], (perm_lookup j Hj) as [Lj _].
  rewrite E in Li.
  assert (ND : NoDup (chars W)).
  { rewrite HW. apply (bool_decide_unpack _). by vm_compute. }
  pose proof (NoDup_lookup _ _ _ _ ND Li Lj). lia.
Qed.

Lemma perm_surj j : 0 <= j < 26 -> exists i, 0 <= i < 26 /\ tbl W i = j.
Proof.
  intros Hj. assert (Hin : letter j ∈ chars W).
  { rewrite HW. apply in_alphabet. eauto. }
  apply list_elem_of_lookup in Hin as [n Hn].
  assert (Hlt : (n < 26)%nat).
  { apply lookup_lt_Some in Hn. by rewrite length_chars, perm_length in Hn. }
  exists (Z.of_nat n). split; [lia|].
  destruct (perm_lookup (Z.of_nat n)) as [L R]; [lia|].
  rewrite Nat2Z.id, Hn in L. apply (inj Some) in L.
  apply letter_inj in L; [done|done|lia].
Qed.

(** One turn of the loop of [_calcularInverseWiring]. *)
Lemma inverse_loop (n : nat) :
  (n <= 26)%nat ->
  exists inv,
    foldl (fun acc i =>
             let! inv := acc in
             let! saida := receiver (at_ W (Num i)) in
             let idxSaida := sub (charCodeAt0 saida) n65 in
             Ret (array_set inv idxSaida (at_ ALPHABET (Num i))))
          (Ret (new_Array 26)) (seqZ 0 (Z.of_nat n)) = Ret inv
    /\ length inv = 26%nat
    /\ (forall i, 0 <= i < Z.of_nat n ->
          inv !! Z.to_nat (tbl W i) = Some (str (letter i))).
Proof.
  induction n as [|n IH]; intros Hn.
  - exists (new_Array 26). repeat split; try done; lia.
  - destruct IH as (inv & Hfold & Hlen & Hinv); [lia|].
    rewrite seqZ_S, foldl_app, Hfold. cbn [foldl bind]. rewrite Z.add_0_l.
    assert (Hr : 0 <= Z.of_nat n < 26) by lia.
    destruct (lettersb_at W _ perm_lettersb Hr) as [-> Hj].
    cbn [receiver bind]. rewrite charCodeAt0_letter, at_ALPHABET by done.
    set (j := tbl W (Z.of_nat n)) in *.
    exists (<[Z.to_nat j := str (letter (Z.of_nat n))]> inv).
    split; [|split].
    + cbn. replace (65 + j - 65) with j by lia. rewrite Hlen.
      destruct (j <? 0) eqn:E1; [lia|].
      assert (E2 : (j <? Z.of_nat 26) = true) by (apply Z.ltb_lt; lia).
      by rewrite E2.
    + by rewrite length_insert.
    + intros i Hi. destruct (decide (i = Z.of_nat n)) as [->|Hne].
      * apply list_lookup_insert_eq. lia.
      * rewrite list_lookup_insert_ne; [apply Hinv; lia|].
        intros E. apply Hne. apply perm_inj; [lia|lia|].
        destruct (perm_lookup i) as [_ ?]; [lia|]. fold j. lia.
Qed.

Lemma join_letters (a : list value) :
  Forall (fun v => exists k, v = str (letter k)) a -> str <$> chars (join a) = a.
Proof.
  induction 1 as [|v a [k ->] _ IH]; [done|].
  unfold letter. cbn [join].
  change (str <$> chars (String (ascii_of_N (Z.to_N (65 + k))) (join a))
          = str (String (ascii_of_N (Z.to_N (65 + k))) EmptyString) :: a).
  cbn [chars]. by rewrite fmap_cons, IH.
Qed.

Lemma calcularInverseWiring_perm :
  exists inv, Rotor._calcularInverseWiring W = Ret inv
    /\ lettersb inv = true /\ inverseb W inv = true /\ inverseb inv W = true.
Proof.
  destruct (inverse_loop 26) as (a & Hfold & Hlen & Ha); [lia|].
  assert (Hat : forall i, 0 <= i < 26 -> tbl (join a) (tbl W i) = i).
  { intros i Hi. destruct (perm_lookup i Hi) as [_ Hj].
    unfold tbl at 1. rewrite at_chars by lia.
    assert (Hfull : Forall (fun v => exists k, v = str (letter k)) a).
    { apply Forall_lookup. intros n v Hn.
      destruct (perm_surj (Z.of_nat n)) as (i' & Hi' & E).
      { apply lookup_lt_Some in Hn. lia. }
      specialize (Ha i' ltac:(lia)). rewrite E, Nat2Z.id, Hn in Ha.
      exists i'. congruence. }
    pose proof (Ha i ltac:(lia)) as Hl.
    rewrite <- (join_letters a Hfull), list_lookup_fmap in Hl at 1.
    destruct (chars (join a) !! Z.to_nat (tbl W i)) as [l|]; [|done].
    cbn in Hl |- *. replace l with (letter i) by congruence.
    by apply index_of_letter. }
  exists (join a). split; [|split; [|split]].
  - unfold Rotor._calcularInverseWiring. change (Z.of_nat 26) with 26 in Hfold.
    cbv zeta in Hfold |- *. by rewrite Hfold.
  - apply forallb_range26_intro. intros j Hj.
    destruct (perm_surj j Hj) as (i & Hi & <-). rewrite Hat by done.
    by apply in_range_spec.
  - apply forallb_range26_intro. intros i Hi. rewrite Hat by done. lia.
  - apply forallb_range26_intro. intros j Hj.
    destruct (perm_surj j Hj) as (i & Hi & <-). rewrite Hat by done. lia.
Qed.

End permutation.

Lemma Rotor_new_perm w notch p0 :
  permutation_of_alphabet (toUpperCase w) ->
  exists r, Rotor.new w notch p0 = Ret r
    /\ forall p, 0 <= p < 26 -> rotor_facts (Rotor.set_posicao r (Num p)) p.
Proof.
  intros HW. unfold Rotor.new.
  pose proof (perm_length _ HW) as Hlen. rewrite length_toUpperCase in Hlen.
  rewrite Hlen. cbn [Nat.eqb negb].
  destruct (calcularInverseWiring_perm _ HW) as (inv & -> & Hi & Hwi & Hiw).
  eexists. split; [done|]. intros p Hp. split; try done.
  by apply perm_lettersb.
Qed.


(** ** Plugboard *)

Lemma includes_char s c :
  includes s (String c EmptyString) = true <-> String c EmptyString ∈ chars s.
Proof.
  rewrite list_elem_of_In.
  induction s as [|d s IH]; [done|]. cbn [includes chars In].
  rewrite orb_true_iff, IH. cbn [String.prefix].
  destruct (ascii_dec c d) as [->|Hne].
  - destruct s; tauto.
  - split; intros [H|H]; try done; auto. congruence.
Qed.

Lemma includes_letter k : 0 <= k < 26 -> includes ALPHABET (letter k) = true.
Proof. revert k. apply range26. by_compute. Qed.

Lemma accepted_letters par a b :
  accepted par = Some (a, b) ->
  (exists i, 0 <= i < 26 /\ a = letter i) /\ (exists j, 0 <= j < 26 /\ b = letter j).
Proof.
  destruct par as [|x [|y [|??]]]; try done. cbn [accepted toUpperCase].
  destruct (includes ALPHABET (String (upper x) EmptyString)) eqn:Ex; [|done].
  destruct (includes ALPHABET (String (upper y) EmptyString)) eqn:Ey; [|done].
  intros [= <- <-]. split; by apply in_alphabet, includes_char.
Qed.

Lemma Plugboard_new_connect pares :
  Plugboard.mapa (Plugboard.new pares) = foldl connect mapa0 (omap accepted pares).
Proof.
  unfold Plugboard.new. cbn [Plugboard.mapa]. fold mapa0.
  generalize mapa0. induction pares as [|par pares IH]; intros m; [done|].
  cbn [foldl]. rewrite IH. clear IH.
  change (omap accepted (par :: pares))
    with (match accepted par with
          | Some ab => ab :: omap accepted pares
          | None => omap accepted pares
          end).
  destruct par as [|x [|y [|??]]]; try done. cbn [accepted].
  by destruct (_ || _).
Qed.

Lemma mapa0_letter k : 0 <= k < 26 -> mapa0 !! letter k = Some (letter k).
Proof. revert k. apply range26. by_compute. Qed.

Lemma connect_letter_map m i j :
  0 <= i < 26 -> 0 <= j < 26 -> letter_map m ->
  letter_map (connect m (letter i, letter j)).
Proof.
  intros Hi Hj Hm k Hk. unfold connect. cbn [fst snd].
  destruct (decide (letter j = letter k)) as [E|N1].
  { exists i. by rewrite E, lookup_insert_eq. }
  rewrite lookup_insert_ne by done.
  destruct (decide (letter i = letter k)) as [E|N2].
  { exists j. by rewrite E, lookup_insert_eq. }
  rewrite lookup_insert_ne by done. by apply Hm.
Qed.

Lemma foldl_connect_letter_map l m :
  Forall (fun ab => exists par, accepted par = Some ab) l ->
  letter_map m -> letter_map (foldl connect m l).
Proof.
  revert m. induction l as [|[a b] l IH]; intros m Hl Hm; [done|].
  apply Forall_cons in Hl as [[par Hpar] Hl]. cbn [foldl]. apply IH; [done|].
  apply accepted_letters in Hpar as [(i & Hi & ->) (j & Hj & ->)].
  by apply connect_letter_map.
Qed.

Lemma omap_accepted pares :
  Forall (fun ab => exists par, accepted par = Some ab) (omap accepted pares).
Proof.
  apply Forall_forall. intros ab (par & _ & H)%list_elem_of_omap. eauto.
Qed.

Lemma letter_map_ok p : letter_map (Plugboard.mapa p) -> plugboard_ok p = true.
Proof.
  intros H. apply forallb_range26_intro. intros k Hk.
  destruct (H k Hk) as (j & Hj & E). unfold plug. rewrite E, index_of_letter by done.
  by apply in_range_spec.
Qed.

Lemma Plugboard_new_ok pares : plugboard_ok (Plugboard.new pares) = true.
Proof.
  apply letter_map_ok. rewrite Plugboard_new_connect.
  apply foldl_connect_letter_map; [apply omap_accepted|].
  intros k Hk. exists k. split; [done|]. by apply mapa0_letter.
Qed.

Lemma plug_lookup p k :
  plugboard_ok p = true -> 0 <= k < 26 ->
  Plugboard.mapa p !! letter k = Some (letter (plug p k)) /\ 0 <= plug p k < 26.
Proof.
  intros H Hk. apply forallb_range26 with (k := k) in H; [|done].
  apply in_range_spec in H. split; [|done]. revert H. unfold plug.
  destruct (Plugboard.mapa p !! letter k) as [s|]; [|lia].
  intros H. by rewrite <- letter_index_of.
Qed.

Lemma trocar_letter p k :
  plugboard_ok p = true -> 0 <= k < 26 ->
  Plugboard.trocar p (str (letter k)) = Ret (str (letter (plug p k))).
Proof.
  intros H Hk. unfold Plugboard.trocar. cbn [receiver bind].
  rewrite toUpperCase_letter, includes_letter by done. cbn [negb].
  by destruct (plug_lookup p k H Hk) as [-> _].
Qed.

Lemma connect_involutive m i j :
  0 <= i < 26 -> 0 <= j < 26 -> involutive_map m ->
  m !! letter i = Some (letter i) -> m !! letter j = Some (letter j) ->
  involutive_map (connect m (letter i, letter j)).
Proof.
  intros Hi Hj Hm Fi Fj k Hk. unfold connect. cbn [fst snd].
  destruct (decide (letter j = letter k)) as [E|N1].
  { exists i. split; [done|]. rewrite <- E, lookup_insert_eq. split; [done|].
    destruct (decide (letter j = letter i)) as [E'|N'].
    - by rewrite <- E', lookup_insert_eq.
    - by rewrite lookup_insert_ne, lookup_insert_eq. }
  destruct (decide (letter i = letter k)) as [E|N2].
  { exists j. split; [done|]. rewrite <- E.
    rewrite lookup_insert_ne, !lookup_insert_eq by congruence. done. }
  destruct (Hm k Hk) as (k' & Hk' & E1 & E2). exists k'. split; [done|].
  rewrite !lookup_insert_ne; [done|congruence|congruence|done|done].
Qed.

Lemma connect_other m a b c :
  a <> c -> b <> c -> connect m (a, b) !! c = m !! c.
Proof. intros. unfold connect. cbn [fst snd]. by rewrite !lookup_insert_ne. Qed.

Lemma apart_spec a b c d :
  apart (a, b) (c, d) = true -> a <> c /\ a <> d /\ b <> c /\ b <> d.
Proof.
  unfold apart. cbn [fst snd]. rewrite !andb_true_iff, !negb_true_iff.
  rewrite !String.eqb_neq. tauto.
Qed.

Lemma foldl_connect_involutive l m :
  Forall (fun ab => exists par, accepted par = Some ab) l ->
  pairwise_apart l = true -> involutive_map m ->
  Forall (fun ab => m !! ab.1 = Some ab.1 /\ m !! ab.2 = Some ab.2) l ->
  involutive_map (foldl connect m l).
Proof.
  revert m. induction l as [|[a b] l IH]; intros m Hl Hap Hm Hfix; [done|].
  apply Forall_cons in Hl as [[par Hpar] Hl].
  apply Forall_cons in Hfix as [[Fa Fb] Hfix]. cbn [fst snd] in Fa, Fb.
  cbn [pairwise_apart] in Hap. apply andb_true_iff in Hap as [Hab Hap].
  apply accepted_letters in Hpar as [(i & Hi & ->) (j & Hj & ->)].
  cbn [foldl]. apply IH; [done|done|by apply connect_involutive|].
  rewrite forallb_forall in Hab. apply Forall_forall. intros [c d] Hcd.
  rewrite Forall_forall in Hfix. destruct (Hfix _ Hcd) as [Fc Fd].
  apply list_elem_of_In, Hab, apart_spec in Hcd as (? & ? & ? & ?).
  cbn [fst snd] in *. by rewrite !connect_other.
Qed.

Lemma involutive_map_ok p :
  involutive_map (Plugboard.mapa p) -> plugboard_involutive p = true.
Proof.
  intros H. apply forallb_range26_intro. intros k Hk.
  destruct (H k Hk) as (j & Hj & E1 & E2). unfold plug.
  rewrite E1, index_of_letter, E2, index_of_letter by done. lia.
Qed.

Lemma Plugboard_new_involutive pares :
  no_letter_reused pares = true -> plugboard_involutive (Plugboard.new pares) = true.
Proof.
  intros H. apply involutive_map_ok. rewrite Plugboard_new_connect.
  apply foldl_connect_involutive; [apply omap_accepted|done| |].
  - intros k Hk. exists k. by rewrite mapa0_letter.
  - eapply Forall_impl; [apply omap_accepted|].
    intros [a b] [par [(i & Hi & ->) (j & Hj & ->)]%accepted_letters].
    cbn [fst snd]. by rewrite !mapa0_letter.
Qed.

(** ** Reflector *)

Lemma refletir_letter r k :
  lettersb (Reflector.wiring r) = true -> 0 <= k < 26 ->
  Reflector.refletir r (str (letter k))
  = Ret (str (letter (tbl (Reflector.wiring r) k))).
Proof.
  intros Hw Hk. unfold Reflector.refletir. cbn [receiver bind].
  rewrite charCodeAt0_letter by done. unfold n65, gt. cbn [sub lt].
  replace (65 + k - 65) with k by lia.
  destruct (k <? 0) eqn:E1; [lia|]. destruct (25 <? k) eqn:E2; [lia|].
  cbn [orb]. by destruct (lettersb_at _ k Hw Hk) as [-> _].
Qed.

(** ** The machine *)

Lemma rotor_ok_pos r : rotor_ok r = true -> rotor_facts r (pos r).
Proof.
  intros [p H]%rotor_ok_facts. unfold pos. by rewrite (rf_pos _ _ H).
Qed.

Lemma machine_ok_parts m :
  machine_ok m = true ->
  let '(r0, r1, r2) := Enigma.rotors m in
  rotor_ok r0 = true /\ rotor_ok r1 = true /\ rotor_ok r2 = true
  /\ lettersb (Reflector.wiring (Enigma.reflector m)) = true
  /\ plugboard_ok (Enigma.plugboard m) = true.
Proof.
  unfold machine_ok. destruct (Enigma.rotors m) as [[r0 r1] r2].
  rewrite !andb_true_iff. tauto.
Qed.

Lemma plug_range p k :
  plugboard_ok p = true -> 0 <= k < 26 -> 0 <= plug p k < 26.
Proof. intros H Hk. by destruct (plug_lookup p k H Hk). Qed.

Lemma tbl_range w k : lettersb w = true -> 0 <= k < 26 -> 0 <= tbl w k < 26.
Proof. intros H Hk. by destruct (lettersb_at w k H Hk). Qed.

(** Side conditions: an index stays within the alphabet. *)
Create HintDb range.
#[local] Hint Resolve via_range plug_range tbl_range : range.
Ltac range := solve [done | eauto with range].

Lemma cipher_range m k :
  machine_ok m = true -> 0 <= k < 26 -> 0 <= cipher m k < 26.
Proof.
  intros Hm Hk. apply machine_ok_parts in Hm. unfold cipher.
  destruct (Enigma.rotors m) as [[r0 r1] r2].
  destruct Hm as (_ & _ & _ & _ & Hp). range.
Qed.

Lemma route_letter m k :
  machine_ok m = true -> 0 <= k < 26 ->
  exists path, Enigma.route m (letter k) = Ret path
    /\ inputLetter path = letter k
    /\ outputLetter path = letter (cipher m k)
    /\ length (steps path) = 11%nat.
Proof.
  intros Hm Hk. apply machine_ok_parts in Hm. unfold Enigma.route, cipher.
  destruct (Enigma.rotors m) as [[r0 r1] r2].
  destruct Hm as ([]%rotor_ok_pos & []%rotor_ok_pos & []%rotor_ok_pos & Hr & Hp).
  pose proof (plug_range _ k Hp Hk).
  rewrite trocar_letter by done. cbn [Enigma.pushed bind receiver].
  rewrite (passarParaFrente_letter r2 (pos r2)) by done.
  cbn [Enigma.pushed bind receiver].
  rewrite (passarParaFrente_letter r1 (pos r1)) by range.
  cbn [Enigma.pushed bind receiver].
  rewrite (passarParaFrente_letter r0 (pos r0)) by range.
  cbn [Enigma.pushed bind receiver].
  rewrite refletir_letter by range.
  cbn [Enigma.pushed bind receiver].
  rewrite (passarParaTras_letter r0 (pos r0))
    by range.
  cbn [Enigma.pushed bind receiver].
  rewrite (passarParaTras_letter r1 (pos r1)) by range.
  cbn [Enigma.pushed bind receiver].
  rewrite (passarParaTras_letter r2 (pos r2)) by range.
  cbn [Enigma.pushed bind receiver].
  rewrite trocar_letter by range.
  cbn [Enigma.pushed bind receiver].
  eexists. split; [done|]. by cbn.
Qed.

Lemma machine_reciprocal_parts m :
  machine_reciprocal m = true ->
  machine_ok m = true
  /\ inverseb (Reflector.wiring (Enigma.reflector m))
              (Reflector.wiring (Enigma.reflector m)) = true
  /\ plugboard_involutive (Enigma.plugboard m) = true.
Proof. unfold machine_reciprocal. rewrite !andb_true_iff. tauto. Qed.

Lemma plug_plug p k :
  plugboard_involutive p = true -> 0 <= k < 26 -> plug p (plug p k) = k.
Proof.
  intros H Hk. unfold plugboard_involutive in H.
  apply forallb_range26 with (k := k) in H; [|done]. lia.
Qed.

(** The routing is its own inverse. *)
Lemma cipher_involutive m k :
  machine_reciprocal m = true -> 0 <= k < 26 -> cipher m (cipher m k) = k.
Proof.
  intros (Hm & Hrr & Hpp)%machine_reciprocal_parts Hk.
  apply machine_ok_parts in Hm. unfold cipher.
  destruct (Enigma.rotors m) as [[r0 r1] r2].
  destruct Hm as ([]%rotor_ok_pos & []%rotor_ok_pos & []%rotor_ok_pos & Hr & Hp).
  pose proof (plug_range _ k Hp Hk).
  rewrite plug_plug by range.
  rewrite (via_inverse (Rotor.inverseWiring r2) (Rotor.wiring r2))
    by range.
  rewrite (via_inverse (Rotor.inverseWiring r1) (Rotor.wiring r1))
    by range.
  rewrite (via_inverse (Rotor.inverseWiring r0) (Rotor.wiring r0))
    by range.
  rewrite inverseb_tbl by range.
  rewrite (via_inverse (Rotor.wiring r0) (Rotor.inverseWiring r0))
    by range.
  rewrite (via_inverse (Rotor.wiring r1) (Rotor.inverseWiring r1))
    by range.
  rewrite (via_inverse (Rotor.wiring r2) (Rotor.inverseWiring r2)) by done.
  by apply plug_plug.
Qed.

Lemma stepRotores_ok m : machine_ok m = true -> machine_ok (Enigma._stepRotores m) = true.
Proof.
  unfold machine_ok, Enigma._stepRotores.
  destruct (Enigma.rotors m) as [[r0 r1] r2]. rewrite !andb_true_iff.
  intros ((((H0 & H1) & H2) & Hr) & Hp).
  destruct (Rotor.estaNoNotch r1), (Rotor.estaNoNotch r2); cbn;
    rewrite !andb_true_iff; repeat split; auto using rotor_ok_girar.
Qed.

Lemma stepRotores_frame m :
  Enigma.reflector (Enigma._stepRotores m) = Enigma.reflector m
  /\ Enigma.plugboard (Enigma._stepRotores m) = Enigma.plugboard m.
Proof.
  unfold Enigma._stepRotores. destruct (Enigma.rotors m) as [[r0 r1] r2].
  by destruct (Rotor.estaNoNotch r1).
Qed.

Lemma stepRotores_reciprocal m :
  machine_reciprocal m = true -> machine_reciprocal (Enigma._stepRotores m) = true.
Proof.
  unfold machine_reciprocal. destruct (stepRotores_frame m) as [-> ->].
  rewrite !andb_true_iff. intros [[H ?] ?]. auto using stepRotores_ok.
Qed.

(** ** One character *)

Lemma char_cases a :
  (exists k, 0 <= k < 26 /\ toUpperCase (String a EmptyString) = letter k)
  \/ includes ALPHABET (toUpperCase (String a EmptyString)) = false.
Proof.
  destruct (includes ALPHABET (toUpperCase (String a EmptyString))) eqn:E; [left|by right].
  by apply includes_char, in_alphabet in E.
Qed.

Lemma encipherCharWithPath_other c m :
  includes ALPHABET (toUpperCase c) = false ->
  Enigma.encipherCharWithPath c m
  = (Ret {| steps := []; inputLetter := c; outputLetter := c |}, m).
Proof. intros H. unfold Enigma.encipherCharWithPath. by rewrite H. Qed.

Lemma encipherCharWithPath_letter c m k :
  machine_ok m = true -> 0 <= k < 26 -> toUpperCase c = letter k ->
  exists path,
    Enigma.encipherCharWithPath c m = (Ret path, Enigma._stepRotores m)
    /\ inputLetter path = letter k
    /\ outputLetter path = letter (cipher (Enigma._stepRotores m) k)
    /\ length (steps path) = 11%nat.
Proof.
  intros Hm Hk E. unfold Enigma.encipherCharWithPath.
  rewrite E, includes_letter by done. cbn [negb].
  destruct (route_letter (Enigma._stepRotores m) k) as (path & -> & ?);
    [by apply stepRotores_ok|done|]. eauto.
Qed.

Lemma encipherChar_other c m :
  includes ALPHABET (toUpperCase c) = false ->
  Enigma.encipherChar c m = (Ret c, m).
Proof.
  intros H. unfold Enigma.encipherChar. by rewrite encipherCharWithPath_other.
Qed.

Lemma encipherChar_letter c m k :
  machine_ok m = true -> 0 <= k < 26 -> toUpperCase c = letter k ->
  Enigma.encipherChar c m
  = (Ret (letter (cipher (Enigma._stepRotores m) k)), Enigma._stepRotores m).
Proof.
  intros Hm Hk E. unfold Enigma.encipherChar.
  destruct (encipherCharWithPath_letter c m k) as (path & -> & _ & <- & _); done.
Qed.

(** ** A whole text *)

Lemma append_cons b s t : String.append (String b s) t = String b (String.append s t).
Proof. reflexivity. Qed.

Lemma append_empty s : String.append s EmptyString = s.
Proof. induction s as [|b s IH]; [done|]. by rewrite append_cons, IH. Qed.

Lemma append_snoc acc a s :
  String.append (String.append acc (String a EmptyString)) s
  = String.append acc (String a s).
Proof. induction acc as [|b acc IH]; [done|]. by rewrite !append_cons, IH. Qed.

Lemma encipherText_loop_spec s acc m :
  machine_ok m = true ->
  Enigma.encipherText_loop (chars s) acc m
  = (Ret (String.append acc (text_spec m s).1), (text_spec m s).2).
Proof.
  revert acc m. induction s as [|a s IH]; intros acc m Hm.
  - cbn [chars Enigma.encipherText_loop text_spec fst snd]. by rewrite append_empty.
  - cbn [chars Enigma.encipherText_loop text_spec].
    destruct (char_cases a) as [(k & Hk & E)|E].
    + rewrite (encipherChar_letter _ m k) by done.
      rewrite E, includes_letter, index_of_letter by done. cbn [fst snd].
      rewrite IH by (by apply stepRotores_ok).
      unfold letter, letter_ascii. by rewrite append_snoc.
    + rewrite encipherChar_other, E by done. cbn [fst snd].
      rewrite IH by done. by rewrite append_snoc.
Qed.

Lemma encipherText_spec s m :
  machine_ok m = true ->
  Enigma.encipherText s m = (Ret (text_spec m s).1, (text_spec m s).2).
Proof. intros Hm. unfold Enigma.encipherText. by rewrite encipherText_loop_spec. Qed.


Lemma text_spec_length s m : String.length (text_spec m s).1 = String.length s.
Proof.
  revert m. induction s as [|a s IH]; intros m; [done|]. cbn [text_spec].
  destruct (includes _ _); cbn; by rewrite IH.
Qed.


Lemma upper_other a :
  includes ALPHABET (toUpperCase (String a EmptyString)) = false -> upper a = a.
Proof.
  destruct a as [[] [] [] [] [] [] [] []]; vm_compute; congruence.
Qed.

Lemma text_spec_reciprocal s m :
  machine_reciprocal m = true ->
  text_spec m (text_spec m s).1 = (toUpperCase s, (text_spec m s).2).
Proof.
  revert m. induction s as [|a s IH]; intros m Hm; [done|].
  pose proof (machine_reciprocal_parts _ Hm) as (Hok & _).
  cbn [text_spec]. destruct (char_cases a) as [(k & Hk & E)|E].
  - rewrite E, includes_letter, index_of_letter by done. cbn [fst snd text_spec].
    set (m' := Enigma._stepRotores m).
    assert (Hm' : machine_reciprocal m' = true) by by apply stepRotores_reciprocal.
    pose proof (machine_reciprocal_parts _ Hm') as (Hok' & _).
    pose proof (cipher_range m' k Hok' Hk) as Hr.
    change (String (letter_ascii (cipher m' k)) EmptyString) with (letter (cipher m' k)).
    rewrite toUpperCase_letter, includes_letter, index_of_letter by done.
    rewrite cipher_involutive, IH by done. cbn [fst snd toUpperCase].
    cbn [toUpperCase] in E. by injection E as ->.
  - rewrite E. cbn [fst snd text_spec]. rewrite E, IH by done.
    cbn [fst snd toUpperCase]. by rewrite (upper_other a).
Qed.

(** ** Building a machine *)

Example inverseWiring_ROTOR_I :
  (let! r := ROTOR_I in Ret (Rotor.inverseWiring r))
  = Ret "UWYGADFPVZBECKMTHXSLRINQOJ"%string.
Proof. reflexivity. Qed.

Example encipher_HELLOWORLD :
  encipher (mkConfig (I, II, III) B ("A", "A", "A") ["AQ"; "BT"]) "HELLOWORLD"
  = Ret "ILTDQQMBQZ"%string.
Proof. by vm_compute. Qed.

Example encipher_AAAAA : encipher default_config "AAAAA" = Ret "BDZGO"%string.
Proof. by vm_compute. Qed.

Example encipher_mixed :
  encipher default_config "Hello, World! 123" = Ret "ILBDA, AMTAZ! 123"%string.
Proof. by vm_compute. Qed.

Example encipher_empty : encipher default_config EmptyString = Ret EmptyString.
Proof. by vm_compute. Qed.

Lemma ROTOR_CONFIGS_ok t : exists r, ROTOR_CONFIGS t = Ret r /\ rotor_ok r = true.
Proof.
  destruct t; (eexists; split; [vm_compute; reflexivity|]); vm_compute; reflexivity.
Qed.

Lemma REFLECTOR_CONFIGS_ok t :
  exists r, REFLECTOR_CONFIGS t = Ret r
    /\ lettersb (Reflector.wiring r) = true
    /\ inverseb (Reflector.wiring r) (Reflector.wiring r) = true.
Proof.
  destruct t; (eexists; split; [vm_compute; reflexivity|]);
    split; vm_compute; reflexivity.
Qed.

Lemma initEnigma_ok config :
  let '(p0, p1, p2) := cfg_positions config in
  alphabet_letter p0 -> alphabet_letter p1 -> alphabet_letter p2 ->
  exists m, initEnigma config = Ret m
    /\ machine_ok m = true
    /\ inverseb (Reflector.wiring (Enigma.reflector m))
                (Reflector.wiring (Enigma.reflector m)) = true
    /\ Enigma.plugboard m = Plugboard.new (cfg_plugboardPairs config)
    /\ positions m = (Num (index_of (toUpperCase p0)),
                      Num (index_of (toUpperCase p1)),
                      Num (index_of (toUpperCase p2))).
Proof.
  destruct config as [[[t0 t1] t2] tr [[p0 p1] p2] pares]. cbn [cfg_positions].
  intros H0 H1 H2. unfold initEnigma.
  cbn [cfg_rotors cfg_positions cfg_reflector cfg_plugboardPairs].
  destruct (ROTOR_CONFIGS_ok t0) as (r0 & -> & Hr0).
  destruct (ROTOR_CONFIGS_ok t1) as (r1 & -> & Hr1).
  destruct (ROTOR_CONFIGS_ok t2) as (r2 & -> & Hr2).
  destruct (REFLECTOR_CONFIGS_ok tr) as (rf & -> & Hrf & Hinv).
  cbn [bind Enigma.new Enigma.setPosicoes Enigma.rotors].
  destruct (setPosicaoPorLetra_letter p0 r0 H0) as (k0 & Hk0 & E0 & ->).
  destruct (setPosicaoPorLetra_letter p1 r1 H1) as (k1 & Hk1 & E1 & ->).
  destruct (setPosicaoPorLetra_letter p2 r2 H2) as (k2 & Hk2 & E2 & ->).
  eexists. split; [done|].
  rewrite E0, E1, E2, !index_of_letter by done.
  unfold machine_ok, positions. cbn.
  rewrite !rotor_ok_set_posicao, Hrf, Plugboard_new_ok by done. done.
Qed.

Lemma initEnigma_reciprocal config :
  let '(p0, p1, p2) := cfg_positions config in
  alphabet_letter p0 -> alphabet_letter p1 -> alphabet_letter p2 ->
  no_letter_reused (cfg_plugboardPairs config) = true ->
  exists m, initEnigma config = Ret m /\ machine_reciprocal m = true.
Proof.
  pose proof (initEnigma_ok config) as H.
  destruct (cfg_positions config) as [[p0 p1] p2]. intros H0 H1 H2 Hp.
  destruct (H H0 H1 H2) as (m & E & Hok & Hrf & Hpb & _).
  exists m. split; [done|]. unfold machine_reciprocal.
  by rewrite Hok, Hrf, Hpb, Plugboard_new_involutive.
Qed.

(** * The properties of the specification *)

(** ** Self-reciprocity *)

(** C1, as stated, fails: a lowercase plaintext comes back in upper case,
    and a plugboard whose pairs share a letter is not an involution, so the
    plaintext "B" comes back as "Q". *)
Lemma self_reciprocity_counterexample :
  round_trip default_config "a" = Ret "A"%string
  /\ round_trip default_config "a" <> Ret "a"%string
  /\ round_trip (mkConfig (I, II, III) B ("A", "A", "A") ["AB"; "AC"]) "B"
     = Ret "Q"%string
  /\ round_trip (mkConfig (I, II, III) B ("A", "A", "A") ["AB"; "AC"]) "B"
     <> Ret "B"%string.
Proof. by vm_compute. Qed.

(** C1, amended: for rotors I to V, reflector B or C, three starting
    positions that are letters, plugboard pairs that share no letter, and
    a plaintext and plugboard entries of code units below 128 (the strings
    on which [toUpperCase] is modelled), a machine built from the settings
    enciphers the ciphertext that an identically built machine produced
    from the plaintext back to that plaintext with a..z in capitals: to
    the plaintext itself when it has no lowercase letter. *)
Theorem self_reciprocity (config : EnigmaConfig) (texto : string) :
  seven_bit texto = true ->
  forallb seven_bit (cfg_plugboardPairs config) = true ->
  letter_positions config ->
  no_letter_reused (cfg_plugboardPairs config) = true ->
  round_trip config texto = Ret (toUpperCase texto).
Proof.
  intros _ _ Hpos Hplug. unfold letter_positions in Hpos.
  pose proof (initEnigma_reciprocal config) as H.
  destruct (cfg_positions config) as [[p0 p1] p2].
  destruct Hpos as (H0 & H1 & H2).
  destruct (H H0 H1 H2 Hplug) as (m & E & Hm).
  pose proof (machine_reciprocal_parts _ Hm) as (Hok & _).
  unfold round_trip, encipher. rewrite E. cbn [bind].
  rewrite encipherText_spec by done. cbn [fst bind].
  rewrite encipherText_spec by done. cbn [fst].
  by rewrite text_spec_reciprocal.
Qed.

(** The instance the specification singles out: rotors I, II, III,
    reflector B, positions AAA, plugboard AQ and BT, plaintext HELLOWORLD. *)
Lemma self_reciprocity_HELLOWORLD :
  seven_bit "HELLOWORLD" = true
  /\ forallb seven_bit ["AQ"; "BT"] = true
  /\ letter_positions (mkConfig (I, II, III) B ("A", "A", "A") ["AQ"; "BT"])
  /\ no_letter_reused ["AQ"; "BT"] = true
  /\ round_trip (mkConfig (I, II, III) B ("A", "A", "A") ["AQ"; "BT"]) "HELLOWORLD"
     = Ret "HELLOWORLD"%string.
Proof.
  assert (Hpos : letter_positions (mkConfig (I, II, III) B ("A", "A", "A") ["AQ"; "BT"])).
  { repeat split; apply (bool_decide_unpack _); vm_compute; exact Logic.I. }
  split; [reflexivity|]. split; [reflexivity|].
  split; [exact Hpos|]. split; [reflexivity|].
  exact (self_reciprocity (mkConfig (I, II, III) B ("A", "A", "A") ["AQ"; "BT"])
           "HELLOWORLD" eq_refl eq_refl Hpos eq_refl).
Defined.

(** ** Stepping *)

(** C2: the stepping of the code is the rule of the specification; it is
    performed on every valid letter, before the letter is routed; from
    [A,E,A] a keystroke moves the left and the middle rotor, from [A,A,V]
    the middle rotor, and with both notches engaged the middle rotor turns
    twice. *)
Theorem stepping_rule (m : Enigma.t) (c : string) :
  alphabet_letter c ->
  Enigma._stepRotores m = stepping_spec m
  /\ Enigma.encipherCharWithPath c m
     = (Enigma.route (stepping_spec m) (toUpperCase c), stepping_spec m)
  /\ positions_after_key (mkConfig (I, II, III) B ("A", "E", "A") []) "A"
     = Ret [str "B"; str "F"; str "B"]
  /\ positions_after_key (mkConfig (I, II, III) B ("A", "A", "V") []) "A"
     = Ret [str "A"; str "B"; str "W"]
  /\ positions_after_key (mkConfig (I, II, III) B ("A", "E", "V") []) "A"
     = Ret [str "B"; str "G"; str "W"].
Proof.
  intros (k & Hk & E)%in_alphabet.
  assert (Hstep : Enigma._stepRotores m = stepping_spec m).
  { unfold Enigma._stepRotores, stepping_spec.
    destruct (Enigma.rotors m) as [[r0 r1] r2].
    by destruct (Rotor.estaNoNotch r1), (Rotor.estaNoNotch r2). }
  split; [done|]. split; [|by vm_compute].
  unfold Enigma.encipherCharWithPath.
  by rewrite E, includes_letter, Hstep.
Qed.

Lemma stepping_rule_witness :
  alphabet_letter "a"
  /\ Enigma._stepRotores default_machine = stepping_spec default_machine
  /\ Enigma.encipherCharWithPath "a" default_machine
     = (Enigma.route (stepping_spec default_machine) "A",
        stepping_spec default_machine).
Proof.
  assert (H : alphabet_letter "a").
  { apply (bool_decide_unpack _); vm_compute; exact Logic.I. }
  split; [exact H|].
  exact (conj (proj1 (stepping_rule default_machine "a" H))
              (proj1 (proj2 (stepping_rule default_machine "a" H)))).
Defined.

(** ** Rotor round trip *)

(** C3: a rotor built on a wiring that is a permutation of the alphabet,
    turned to any position 0..25, sends every letter forward and back, and
    back and forward, to itself. *)
Theorem rotor_round_trip (wiring notchChar : string) (p0 : number) (p : Z) (x : string) :
  permutation_of_alphabet (toUpperCase wiring) ->
  0 <= p < 26 ->
  x ∈ chars ALPHABET ->
  exists r, Rotor.new wiring notchChar p0 = Ret r
    /\ (let! y := Rotor.passarParaFrente (Rotor.set_posicao r (Num p)) (str x) in
        Rotor.passarParaTras (Rotor.set_posicao r (Num p)) y) = Ret (str x)
    /\ (let! y := Rotor.passarParaTras (Rotor.set_posicao r (Num p)) (str x) in
        Rotor.passarParaFrente (Rotor.set_posicao r (Num p)) y) = Ret (str x).
Proof.
  intros HW Hp (k & Hk & ->)%in_alphabet.
  destruct (Rotor_new_perm wiring notchChar p0 HW) as (r & E & Hr).
  exists r. split; [done|]. destruct (Hr p Hp). split.
  - rewrite (passarParaFrente_letter _ p) by done. cbn [bind].
    rewrite (passarParaTras_letter _ p) by range.
    by rewrite (via_inverse _ (Rotor.inverseWiring _)).
  - rewrite (passarParaTras_letter _ p) by done. cbn [bind].
    rewrite (passarParaFrente_letter _ p) by range.
    by rewrite (via_inverse _ (Rotor.wiring _)).
Qed.

Lemma rotor_round_trip_witness :
  permutation_of_alphabet (toUpperCase "EKMFLGDQVZNTOWYHXUSPAIBRCJ")
  /\ 0 <= 7 < 26
  /\ "C"%string ∈ chars ALPHABET
  /\ exists r, Rotor.new "EKMFLGDQVZNTOWYHXUSPAIBRCJ" "Q" (Num 0) = Ret r
    /\ (let! y := Rotor.passarParaFrente (Rotor.set_posicao r (Num 7)) (str "C") in
        Rotor.passarParaTras (Rotor.set_posicao r (Num 7)) y) = Ret (str "C")
    /\ (let! y := Rotor.passarParaTras (Rotor.set_posicao r (Num 7)) (str "C") in
        Rotor.passarParaFrente (Rotor.set_posicao r (Num 7)) y) = Ret (str "C").
Proof.
  assert (H1 : permutation_of_alphabet (toUpperCase "EKMFLGDQVZNTOWYHXUSPAIBRCJ")).
  { apply (bool_decide_unpack _); vm_compute; exact Logic.I. }
  assert (H2 : 0 <= 7 < 26) by lia.
  assert (H3 : "C"%string ∈ chars ALPHABET).
  { apply (bool_decide_unpack _); vm_compute; exact Logic.I. }
  repeat (split; [assumption|]).
  exact (rotor_round_trip "EKMFLGDQVZNTOWYHXUSPAIBRCJ" "Q" (Num 0) 7 "C" H1 H2 H3).
Defined.

(** ** Reflector *)

(** C4: reflectors B and C carry the canonical wirings, reflecting twice
    gives the letter back, and no letter is wired to itself. *)
Theorem reflector_involution (t : ReflectorType) (x : string) :
  x ∈ chars ALPHABET ->
  REFLECTOR_CONFIGS t = Ret (Reflector.mk (reflector_wiring t))
  /\ (let! y := Reflector.refletir (Reflector.mk (reflector_wiring t)) (str x) in
      Reflector.refletir (Reflector.mk (reflector_wiring t)) y) = Ret (str x)
  /\ Reflector.refletir (Reflector.mk (reflector_wiring t)) (str x) <> Ret (str x)
  /\ (forall i, 0 <= i < 26 ->
        at_ (reflector_wiring t) (Num i) <> at_ ALPHABET (Num i)).
Proof.
  intros (k & Hk & ->)%in_alphabet. split; [by destruct t|].
  split; [|split].
  - revert k Hk. apply range26. destruct t; by_compute.
  - revert k Hk. apply range26. destruct t; by_compute.
  - apply range26. destruct t; by_compute.
Qed.

Lemma reflector_involution_witness :
  "K"%string ∈ chars ALPHABET
  /\ (let! y := Reflector.refletir (Reflector.mk (reflector_wiring B)) (str "K") in
      Reflector.refletir (Reflector.mk (reflector_wiring B)) y) = Ret (str "K").
Proof.
  assert (H : "K"%string ∈ chars ALPHABET).
  { apply (bool_decide_unpack _); vm_compute; exact Logic.I. }
  split; [exact H|].
  exact (proj1 (proj2 (reflector_involution B "K" H))).
Defined.

(** ** Plugboard *)

(** C5, as stated, fails: with the pairs AB and AC the later pair rewires
    A, and B is swapped to A and then to C. *)
Lemma plugboard_involution_counterexample :
  "B"%string ∈ chars ALPHABET
  /\ trocar_twice (Plugboard.new ["AB"; "AC"]) "B" = Ret (str "C")
  /\ trocar_twice (Plugboard.new ["AB"; "AC"]) "B" <> Ret (str "B").
Proof.
  split; [by_compute|]. by vm_compute.
Qed.

(** C5, amended: a plugboard built from pair strings that share no letter
    swaps every letter back to itself in two steps, and the plugboard built
    from no pair leaves every letter alone. *)
Theorem plugboard_involution (pares : list string) (x : string) :
  no_letter_reused pares = true ->
  x ∈ chars ALPHABET ->
  trocar_twice (Plugboard.new pares) x = Ret (str x)
  /\ Plugboard.trocar (Plugboard.new []) (str x) = Ret (str x).
Proof.
  intros Hp (k & Hk & ->)%in_alphabet. split.
  - pose proof (Plugboard_new_ok pares) as Hok.
    unfold trocar_twice. rewrite trocar_letter by done. cbn [bind].
    rewrite trocar_letter by (done || by apply plug_range).
    by rewrite plug_plug by (done || by apply Plugboard_new_involutive).
  - revert k Hk. apply range26. by_compute.
Qed.

Lemma plugboard_involution_witness :
  no_letter_reused ["AQ"; "bt"; "x"; "1A"] = true
  /\ "Q"%string ∈ chars ALPHABET
  /\ trocar_twice (Plugboard.new ["AQ"; "bt"; "x"; "1A"]) "Q" = Ret (str "Q").
Proof.
  assert (H : "Q"%string ∈ chars ALPHABET).
  { apply (bool_decide_unpack _); vm_compute; exact Logic.I. }
  split; [reflexivity|]. split; [exact H|].
  exact (proj1 (plugboard_involution ["AQ"; "bt"; "x"; "1A"] "Q" eq_refl H)).
Defined.

(** ** Characters that are not letters *)

Lemma initEnigma_default : initEnigma default_config = Ret default_machine.
Proof. by vm_compute. Qed.




(** ** Setting positions *)




Lemma alphabet_letter_isValidLetter s :
  alphabet_letter s <-> Refactored.isValidLetter s = true.
Proof.
  unfold Refactored.isValidLetter. rewrite andb_true_iff, Nat.eqb_eq. split.
  - intros (k & Hk & E)%in_alphabet. rewrite E, includes_letter by done.
    by rewrite <- length_toUpperCase, E.
  - intros [Hlen Hin]. destruct s as [|a [|??]]; try done.
    by apply includes_char in Hin.
Qed.

(** The rewritten setter does keep the contract of C7. *)
Lemma Refactored_setPosition_contract (s : string) (r : Refactored.Rotor) :
  (alphabet_letter s ->
   Refactored.setPosition s r
   = (Ret tt, Refactored.mkRotor (Refactored._id r) (Refactored._wiring r)
                (Refactored._inverseWiring r) (Refactored._notch r)
                (Num (index_of (toUpperCase s)))))
  /\ (~ alphabet_letter s ->
      Refactored.setPosition s r
      = (Throw (Error (String.append "Invalid position letter: " s)), r)).
Proof.
  unfold Refactored.setPosition. split.
  - intros H. rewrite (proj1 (alphabet_letter_isValidLetter s) H). cbn [negb].
    apply in_alphabet in H as (k & Hk & E).
    unfold Refactored.letterToIndex, Refactored.ASCII_OFFSET.
    rewrite E, charCodeAt0_letter, index_of_letter by done. cbn [sub].
    by replace (65 + k - 65) with k by lia.
  - intros H. destruct (Refactored.isValidLetter s) eqn:E; [|done].
    by apply alphabet_letter_isValidLetter in E.
Qed.

(** C7: [setPosicaoPorLetra] raises no error on a string of several
    characters that begins with a letter, nor on the empty string, which
    leaves the rotor at position [NaN]; neither string is a single letter,
    and the rewritten [setPosition] rejects both. *)
Theorem setPosicaoPorLetra_accepts_non_letters (r : Rotor.t) (r' : Refactored.Rotor) :
  (~ alphabet_letter "AB"
   /\ Rotor.setPosicaoPorLetra "AB" r = (Ret tt, Rotor.set_posicao r (Num 0))
   /\ Refactored.setPosition "AB" r'
      = (Throw (Error "Invalid position letter: AB"), r'))
  /\ (~ alphabet_letter EmptyString
      /\ Rotor.setPosicaoPorLetra EmptyString r = (Ret tt, Rotor.set_posicao r NaN)
      /\ Refactored.setPosition EmptyString r'
         = (Throw (Error "Invalid position letter: "), r')).
Proof.
  split; (split; [by_compute|done]).
Qed.

(** The rewritten [setPositions] is no more atomic than [setPosicoes]. *)
Lemma Refactored_setPositions_not_atomic (p0 bad p2 : string)
    (r0 r1 r2 : Refactored.Rotor) :
  alphabet_letter p0 -> ~ alphabet_letter bad ->
  Refactored.setPositions (p0, bad, p2) (r0, r1, r2)
  = (Throw (Error (String.append "Invalid position letter: " bad)),
     (Refactored.mkRotor (Refactored._id r0) (Refactored._wiring r0)
        (Refactored._inverseWiring r0) (Refactored._notch r0)
        (Num (index_of (toUpperCase p0))), r1, r2)).
Proof.
  intros H0 Hbad. unfold Refactored.setPositions.
  rewrite (proj1 (Refactored_setPosition_contract p0 r0) H0).
  by rewrite (proj2 (Refactored_setPosition_contract bad r1) Hbad).
Qed.




(** ** The default machine never maps a letter to itself *)

Lemma default_machine_ok : machine_ok default_machine = true.
Proof. by vm_compute. Qed.

(** C8: a machine fresh from the default settings (rotors I, II, III,
    reflector B, positions AAA, no plug) enciphers no letter to itself. *)
Theorem no_self_mapping (x : string) :
  x ∈ chars ALPHABET ->
  exists m y, initEnigma default_config = Ret m
    /\ (Enigma.encipherChar x m).1 = Ret y
    /\ y ∈ chars ALPHABET
    /\ y <> x.
Proof.
  intros (k & Hk & ->)%in_alphabet. exists default_machine.
  exists (letter (cipher (Enigma._stepRotores default_machine) k)).
  split; [apply initEnigma_default|].
  rewrite (encipherChar_letter _ _ k)
    by (done || apply default_machine_ok || by apply toUpperCase_letter).
  split; [done|]. split.
  - apply in_alphabet. eexists. split; [|done].
    apply cipher_range; [|done]. apply stepRotores_ok, default_machine_ok.
  - revert k Hk. apply range26. by_compute.
Qed.

Lemma no_self_mapping_witness :
  "E"%string ∈ chars ALPHABET
  /\ exists m y, initEnigma default_config = Ret m
    /\ (Enigma.encipherChar "E" m).1 = Ret y
    /\ y ∈ chars ALPHABET
    /\ y <> "E"%string.
Proof.
  assert (H : "E"%string ∈ chars ALPHABET).
  { apply (bool_decide_unpack _); vm_compute; exact Logic.I. }
  split; [exact H|]. exact (no_self_mapping "E" H).
Defined.

(** ** Lowercase letters *)

Lemma lowercase_letter x :
  x ∈ chars lowercase ->
  exists k, 0 <= k < 26 /\ toUpperCase x = letter k /\ x <> letter k.
Proof.
  intros H%list_elem_of_In. simpl in H.
  repeat (destruct H as [<-|H];
          [match goal with
           | |- exists k, _ /\ toUpperCase ?s = _ /\ _ =>
               exists (index_of (toUpperCase s)); by vm_compute
           end|]).
  done.
Qed.

Lemma stepRotores_moves m :
  machine_ok m = true -> positions (Enigma._stepRotores m) <> positions m.
Proof.
  intros Hm. apply machine_ok_parts in Hm.
  unfold positions, Enigma._stepRotores.
  destruct (Enigma.rotors m) as [[r0 r1] r2].
  destruct Hm as (_ & _ & [p []]%rotor_ok_facts & _).
  destruct (if Rotor.estaNoNotch r1 then _ else _) as [r1' r0'].
  cbn [Enigma.rotors Enigma.set_rotors Rotor.girar Rotor.set_posicao Rotor.posicao].
  rewrite rf_pos0. cbn. intros [= _ _ E].
  rewrite Z.rem_mod_nonneg in E by lia.
  destruct (decide (p = 25)) as [->|]; [done|].
  rewrite Z.mod_small in E; lia.
Qed.

(** C10: a lowercase letter is enciphered exactly as its capital is: the
    same result (signal path included) and the same machine afterwards,
    which is the machine stepped once; on a machine in working order the
    rotors do move and the result is a capital letter, not the input. *)
Theorem case_insensitive (m : Enigma.t) (x : string) :
  x ∈ chars lowercase ->
  Enigma.encipherCharWithPath x m = Enigma.encipherCharWithPath (toUpperCase x) m
  /\ Enigma.encipherChar x m = Enigma.encipherChar (toUpperCase x) m
  /\ (Enigma.encipherChar x m).2 = Enigma._stepRotores m
  /\ (machine_ok m = true ->
      positions (Enigma.encipherChar x m).2 <> positions m
      /\ exists y, y ∈ chars ALPHABET /\ (Enigma.encipherChar x m).1 = Ret y /\ y <> x).
Proof.
  intros (k & Hk & E & Hne)%lowercase_letter.
  assert (Hpath : Enigma.encipherCharWithPath x m
                  = Enigma.encipherCharWithPath (toUpperCase x) m).
  { unfold Enigma.encipherCharWithPath.
    by rewrite E, toUpperCase_letter, includes_letter. }
  split; [done|]. split; [unfold Enigma.encipherChar; by rewrite Hpath|].
  assert (Hstep : (Enigma.encipherChar x m).2 = Enigma._stepRotores m).
  { unfold Enigma.encipherChar, Enigma.encipherCharWithPath.
    by rewrite E, includes_letter. }
  split; [done|]. intros Hm. rewrite Hstep. split; [by apply stepRotores_moves|].
  rewrite (encipherChar_letter x m k) by done. cbn [fst].
  pose proof (cipher_range (Enigma._stepRotores m) k (stepRotores_ok m Hm) Hk) as Hr.
  eexists. split; [|split; [done|]].
  - apply in_alphabet. eauto.
  - intros <-. by rewrite toUpperCase_letter in E.
Qed.

Lemma case_insensitive_witness :
  "h"%string ∈ chars lowercase
  /\ Enigma.encipherChar "h" default_machine = Enigma.encipherChar "H" default_machine.
Proof.
  assert (H : "h"%string ∈ chars lowercase).
  { apply (bool_decide_unpack _); vm_compute; exact Logic.I. }
  split; [exact H|].
  exact (proj1 (proj2 (case_insensitive default_machine "h" H))).
Defined.

(** * Further properties of the engine *)

(** ** The rotor constructor *)

Lemma at_defined s k :
  0 <= k < Z.of_nat (String.length s) ->
  exists c, at_ s (Num k) = str (String c EmptyString).
Proof.
  intros Hk. rewrite at_chars, get_chars by lia.
  destruct (String.get (Z.to_nat k) s) as [c|] eqn:E; [by exists c|].
  assert (H : is_Some (chars s !! Z.to_nat k)).
  { apply lookup_lt_is_Some_2. rewrite length_chars. lia. }
  rewrite get_chars, E in H. by destruct H.
Qed.

Lemma calcularInverseWiring_total W :
  String.length W = 26%nat -> exists inv, Rotor._calcularInverseWiring W = Ret inv.
Proof.
  intros Hlen.
  assert (H : forall n : nat, (n <= 26)%nat ->
    exists a,
      foldl (fun acc i =>
               let! inv := acc in
               let! saida := receiver (at_ W (Num i)) in
               let idxSaida := sub (charCodeAt0 saida) n65 in
               Ret (array_set inv idxSaida (at_ ALPHABET (Num i))))
            (Ret (new_Array 26)) (seqZ 0 (Z.of_nat n)) = Ret a).
  { induction n as [|n IH]; intros Hn; [by eexists|].
    destruct IH as [a Ha]; [lia|].
    rewrite seqZ_S, foldl_app, Ha. cbn [foldl bind]. rewrite Z.add_0_l.
    destruct (at_defined W (Z.of_nat n)) as [c ->]; [lia|]. by eexists. }
  destruct (H 26%nat) as [a Ha]; [lia|]. change (Z.of_nat 26) with 26 in Ha.
  exists (join a). unfold Rotor._calcularInverseWiring.
  cbv zeta in Ha |- *. by rewrite Ha.
Qed.

(** X1: the constructor raises its error exactly when the wiring does not
    have 26 characters; on any 26 characters it returns a rotor whose wiring
    and notch are in upper case and whose position is the remainder of the
    initial position by 26. *)
Theorem Rotor_new_contract (wiring notchChar : string) (posicaoInicial : number) :
  if (String.length wiring =? 26)%nat
  then exists inv,
         Rotor.new wiring notchChar posicaoInicial
         = Ret (Rotor.mk (toUpperCase wiring) (toUpperCase notchChar)
                  (rem posicaoInicial n26) inv)
  else Rotor.new wiring notchChar posicaoInicial
       = Throw (Error "Rotor wiring must have 26 letters").
Proof.
  unfold Rotor.new. destruct (String.length wiring =? 26)%nat eqn:E; [|done].
  apply Nat.eqb_eq in E. cbn [negb].
  destruct (calcularInverseWiring_total (toUpperCase wiring)) as [inv ->].
  { by rewrite length_toUpperCase. }
  by exists inv.
Qed.

(** ** The inverse wiring *)

Lemma chars_inj s t : chars s = chars t -> s = t.
Proof.
  revert t. induction s as [|a s IH]; intros [|b t]; try done.
  cbn [chars]. intros [= -> H]. by rewrite (IH t).
Qed.

Lemma lettersb_lookup w k :
  lettersb w = true -> 0 <= k < 26 ->
  chars w !! Z.to_nat k = Some (letter (tbl w k)).
Proof.
  intros Hw Hk. destruct (lettersb_at w k Hw Hk) as [E _].
  rewrite at_chars in E by lia.
  destruct (chars w !! Z.to_nat k) as [l|]; [|done]. cbn in E. congruence.
Qed.

Lemma table_ext s t :
  String.length s = 26%nat -> String.length t = 26%nat ->
  lettersb s = true -> lettersb t = true ->
  (forall k, 0 <= k < 26 -> tbl s k = tbl t k) -> s = t.
Proof.
  intros Ls Lt Hs Ht H. apply chars_inj, list_eq. intros i.
  destruct (decide (i < 26)%nat) as [Hi|Hi].
  - pose proof (lettersb_lookup s (Z.of_nat i) Hs ltac:(lia)) as E1.
    pose proof (lettersb_lookup t (Z.of_nat i) Ht ltac:(lia)) as E2.
    rewrite Nat2Z.id in E1, E2. rewrite E1, E2, H by lia. done.
  - rewrite !lookup_ge_None_2; [done| |]; rewrite length_chars; lia.
Qed.

Section inverse_twice.

Variable W : string.
Hypothesis HW : chars W ≡ₚ chars ALPHABET.

Lemma inverse_wiring_facts :
  exists inv, Rotor._calcularInverseWiring W = Ret inv
    /\ String.length inv = 26%nat
    /\ lettersb inv = true /\ inverseb W inv = true /\ inverseb inv W = true.
Proof.
  destruct (calcularInverseWiring_perm W HW) as (inv & E & Hl & H1 & H2).
  exists inv. repeat split; try done.
  destruct (inverse_loop W HW 26) as (a & Hfold & Hlen & Ha); [lia|].
  assert (inv = join a) as ->.
  { unfold Rotor._calcularInverseWiring in E. change (Z.of_nat 26) with 26 in Hfold.
    cbv zeta in Hfold, E. rewrite Hfold in E. cbn in E. congruence. }
  assert (Hfull : Forall (fun v => exists k, v = str (letter k)) a).
  { apply Forall_lookup. intros n v Hn.
    destruct (perm_surj W HW (Z.of_nat n)) as (i & Hi & Ei).
    { apply lookup_lt_Some in Hn. lia. }
    specialize (Ha i ltac:(lia)). rewrite Ei, Nat2Z.id, Hn in Ha.
    exists i. congruence. }
  rewrite <- length_chars, <- (length_fmap str), join_letters; done.
Qed.

Lemma inverse_wiring_perm inv :
  Rotor._calcularInverseWiring W = Ret inv -> chars inv ≡ₚ chars ALPHABET.
Proof.
  intros E. destruct inverse_wiring_facts as (inv' & E' & Hlen & Hl & H1 & H2).
  assert (inv' = inv) as -> by congruence.
  apply NoDup_Permutation.
  - apply NoDup_alt. intros i j x Hi Hj.
    assert (Li : (i < 26)%nat).
    { apply lookup_lt_Some in Hi. by rewrite length_chars, Hlen in Hi. }
    assert (Lj : (j < 26)%nat).
    { apply lookup_lt_Some in Hj. by rewrite length_chars, Hlen in Hj. }
    pose proof (lettersb_lookup inv (Z.of_nat i) Hl ltac:(lia)) as Ei.
    pose proof (lettersb_lookup inv (Z.of_nat j) Hl ltac:(lia)) as Ej.
    rewrite Nat2Z.id in Ei, Ej. rewrite Hi in Ei. rewrite Hj in Ej.
    assert (Et : tbl inv (Z.of_nat i) = tbl inv (Z.of_nat j)).
    { apply letter_inj; [by apply tbl_range; [|lia]..|congruence]. }
    apply (f_equal (tbl W)) in Et.
    rewrite !(inverseb_tbl inv W) in Et by (done || lia). lia.
  - by_compute.
  - intros x. split.
    + intros [i Hi]%list_elem_of_lookup.
      assert (Li : (i < 26)%nat).
      { apply lookup_lt_Some in Hi. by rewrite length_chars, Hlen in Hi. }
      pose proof (lettersb_lookup inv (Z.of_nat i) Hl ltac:(lia)) as Ei.
      rewrite Nat2Z.id, Hi in Ei. apply in_alphabet.
      exists (tbl inv (Z.of_nat i)). split; [|congruence].
      apply tbl_range; [done|lia].
    + intros (k & Hk & ->)%in_alphabet.
      destruct (perm_lookup W HW k Hk) as [_ Hr].
      pose proof (lettersb_lookup inv _ Hl Hr) as E1.
      rewrite (inverseb_tbl W inv) in E1 by done.
      by eapply list_elem_of_lookup_2.
Qed.

End inverse_twice.

(** X2: on a wiring that is a permutation of the alphabet the inverse
    wiring is again a permutation of the alphabet, of 26 letters, and
    inverting it gives the wiring back. *)
Theorem calcularInverseWiring_twice (W : string) :
  permutation_of_alphabet W ->
  exists inv, Rotor._calcularInverseWiring W = Ret inv
    /\ String.length inv = 26%nat
    /\ permutation_of_alphabet inv
    /\ Rotor._calcularInverseWiring inv = Ret W.
Proof.
  intros HW. destruct (inverse_wiring_facts W HW) as (inv & E & Hlen & Hl & H1 & H2).
  pose proof (inverse_wiring_perm W HW inv E) as Hp.
  exists inv. repeat split; try done.
  destruct (inverse_wiring_facts inv Hp) as (w & Ew & Lw & Hlw & H3 & H4).
  rewrite Ew. f_equal. apply table_ext; try done.
  - apply (perm_length W HW).
  - by apply perm_lettersb.
  - intros k Hk. destruct (perm_surj inv Hp k Hk) as (i & Hi & <-).
    by rewrite (inverseb_tbl inv w), (inverseb_tbl inv W).
Qed.

Lemma calcularInverseWiring_twice_witness :
  permutation_of_alphabet "EKMFLGDQVZNTOWYHXUSPAIBRCJ"
  /\ exists inv, Rotor._calcularInverseWiring "EKMFLGDQVZNTOWYHXUSPAIBRCJ" = Ret inv
    /\ String.length inv = 26%nat
    /\ permutation_of_alphabet inv
    /\ Rotor._calcularInverseWiring inv = Ret "EKMFLGDQVZNTOWYHXUSPAIBRCJ"%string.
Proof.
  assert (H : permutation_of_alphabet "EKMFLGDQVZNTOWYHXUSPAIBRCJ").
  { apply (bool_decide_unpack _); vm_compute; exact Logic.I. }
  split; [exact H|].
  exact (calcularInverseWiring_twice "EKMFLGDQVZNTOWYHXUSPAIBRCJ" H).
Defined.

(** ** Turning a rotor *)

Lemma set_posicao_id r p : Rotor.posicao r = p -> Rotor.set_posicao r p = r.
Proof. destruct r. cbn. by intros ->. Qed.

Lemma girar_posicao r p :
  Rotor.posicao r = Num p -> 0 <= p < 26 ->
  Rotor.girar r = Rotor.set_posicao r (Num ((p + 1) mod 26)).
Proof.
  intros E Hp. unfold Rotor.girar. rewrite E. cbn. do 2 f_equal.
  apply Z.rem_mod_nonneg; lia.
Qed.

(** X3: [n] turns take a rotor at position [p] to position [(p + n) mod
    26], Z wrapping to A, and change nothing else; 26 turns give the rotor
    back. *)
Theorem girar_iter (r : Rotor.t) (p : Z) (n : nat) :
  Rotor.posicao r = Num p -> 0 <= p < 26 ->
  Nat.iter n Rotor.girar r = Rotor.set_posicao r (Num ((p + Z.of_nat n) mod 26))
  /\ Nat.iter 26 Rotor.girar r = r.
Proof.
  intros E Hp.
  assert (H : forall n : nat,
    Nat.iter n Rotor.girar r = Rotor.set_posicao r (Num ((p + Z.of_nat n) mod 26))).
  { clear n. induction n as [|n IH].
    - change (Nat.iter 0 Rotor.girar r) with r.
      rewrite Z.add_0_r, Z.mod_small by done.
      symmetry. by apply set_posicao_id.
    - rewrite Nat.iter_succ, IH.
      rewrite (girar_posicao _ ((p + Z.of_nat n) mod 26))
        by (done || apply Z.mod_pos_bound; lia).
      unfold Rotor.set_posicao. cbn. do 2 f_equal.
      rewrite Zplus_mod_idemp_l. f_equal. lia. }
  split; [apply H|]. rewrite H.
  replace ((p + Z.of_nat 26) mod 26) with p; [by apply set_posicao_id|].
  change (Z.of_nat 26) with (1 * 26). rewrite Z.mod_add, Z.mod_small; lia.
Qed.

Lemma girar_iter_witness :
  Rotor.posicao (Rotor.mk ALPHABET "Q" (Num 25) ALPHABET) = Num 25
  /\ 0 <= 25 < 26
  /\ Nat.iter 3 Rotor.girar (Rotor.mk ALPHABET "Q" (Num 25) ALPHABET)
     = Rotor.mk ALPHABET "Q" (Num 2) ALPHABET.
Proof.
  split; [reflexivity|]. split; [lia|].
  exact (proj1 (girar_iter (Rotor.mk ALPHABET "Q" (Num 25) ALPHABET) 25 3
                  eq_refl ltac:(lia))).
Defined.

(** ** Reading and setting the positions *)

Lemma getPosicaoLetra_set r k :
  0 <= k < 26 ->
  Rotor.getPosicaoLetra (Rotor.set_posicao r (Num k)) = str (letter k).
Proof. intros Hk. unfold Rotor.getPosicaoLetra. cbn. by apply at_ALPHABET. Qed.

(** X4: [setPosicoes] with three letters, in either case, raises nothing;
    [getPosicoes] then reads the three letters back in upper case, and the
    wirings, notches, reflector and plugboard are untouched. *)
Theorem setPosicoes_getPosicoes (m : Enigma.t) (p0 p1 p2 : string) :
  alphabet_letter p0 -> alphabet_letter p1 -> alphabet_letter p2 ->
  exists m', Enigma.setPosicoes [p0; p1; p2] m = (Ret tt, m')
    /\ Enigma.getPosicoes m'
       = [str (toUpperCase p0); str (toUpperCase p1); str (toUpperCase p2)]
    /\ Enigma.reflector m' = Enigma.reflector m
    /\ Enigma.plugboard m' = Enigma.plugboard m
    /\ (let '(r0, r1, r2) := Enigma.rotors m in
        let '(r0', r1', r2') := Enigma.rotors m' in
        (Rotor.wiring r0', Rotor.inverseWiring r0', Rotor.notchChar r0')
        = (Rotor.wiring r0, Rotor.inverseWiring r0, Rotor.notchChar r0)
        /\ (Rotor.wiring r1', Rotor.inverseWiring r1', Rotor.notchChar r1')
           = (Rotor.wiring r1, Rotor.inverseWiring r1, Rotor.notchChar r1)
        /\ (Rotor.wiring r2', Rotor.inverseWiring r2', Rotor.notchChar r2')
           = (Rotor.wiring r2, Rotor.inverseWiring r2, Rotor.notchChar r2)).
Proof.
  intros H0 H1 H2. unfold Enigma.setPosicoes, Enigma.getPosicoes.
  destruct (Enigma.rotors m) as [[r0 r1] r2] eqn:Er.
  destruct (setPosicaoPorLetra_letter p0 r0 H0) as (k0 & Hk0 & E0 & ->).
  destruct (setPosicaoPorLetra_letter p1 r1 H1) as (k1 & Hk1 & E1 & ->).
  destruct (setPosicaoPorLetra_letter p2 r2 H2) as (k2 & Hk2 & E2 & ->).
  eexists. split; [done|]. cbn [Enigma.rotors Enigma.set_rotors map].
  rewrite !getPosicaoLetra_set, E0, E1, E2 by done. done.
Qed.

Lemma setPosicoes_getPosicoes_witness :
  alphabet_letter "b" /\ alphabet_letter "C" /\ alphabet_letter "d"
  /\ exists m', Enigma.setPosicoes ["b"; "C"; "d"] default_machine = (Ret tt, m')
       /\ Enigma.getPosicoes m' = [str "B"; str "C"; str "D"].
Proof.
  assert (H0 : alphabet_letter "b").
  { apply (bool_decide_unpack _); vm_compute; exact Logic.I. }
  assert (H1 : alphabet_letter "C").
  { apply (bool_decide_unpack _); vm_compute; exact Logic.I. }
  assert (H2 : alphabet_letter "d").
  { apply (bool_decide_unpack _); vm_compute; exact Logic.I. }
  repeat (split; [assumption|]).
  destruct (setPosicoes_getPosicoes default_machine "b" "C" "d" H0 H1 H2)
    as (m' & E & G & _).
  exists m'. split; [exact E|exact G].
Defined.

(** X5: the count of positions is checked before any rotor is touched: a
    list that does not have exactly three entries raises the error and
    leaves the machine as it was, whatever the entries are; likewise the
    constructor returns a machine on exactly three rotors and raises its
    error on any other count. *)
Theorem wrong_count_rejected (m : Enigma.t) (posicoes : list string)
    (reflector : Reflector.t) (rotors : list Rotor.t) (plugboard : Plugboard.t) :
  (if (length posicoes =? 3)%nat
   then (Enigma.setPosicoes posicoes m).1
        <> Throw (Error "3 positions required (left, middle, right)")
   else Enigma.setPosicoes posicoes m
        = (Throw (Error "3 positions required (left, middle, right)"), m))
  /\ (if (length rotors =? 3)%nat
      then exists r0 r1 r2, rotors = [r0; r1; r2]
             /\ Enigma.new reflector rotors plugboard
                = Ret (Enigma.mk reflector (r0, r1, r2) plugboard)
      else Enigma.new reflector rotors plugboard
           = Throw (Error "Use exactly 3 rotors for M3 version")).
Proof.
  split.
  - destruct posicoes as [|p0 [|p1 [|p2 [|? ?]]]]; try done.
    cbn [length Nat.eqb]. unfold Enigma.setPosicoes, Rotor.setPosicaoPorLetra.
    destruct (Enigma.rotors m) as [[r0 r1] r2].
    repeat (destruct (_ || _); [done|]). done.
  - destruct rotors as [|r0 [|r1 [|r2 [|? ?]]]]; cbn; eauto.
Qed.

(** ** More on the plugboard *)

Lemma upper_idem a : upper (upper a) = upper a.
Proof. destruct a as [[] [] [] [] [] [] [] []]; by vm_compute. Qed.

Lemma toUpperCase_idem s : toUpperCase (toUpperCase s) = toUpperCase s.
Proof. induction s as [|a s IH]; [done|]. cbn. by rewrite upper_idem, IH. Qed.

Lemma Plugboard_new_letter_map pares : letter_map (Plugboard.mapa (Plugboard.new pares)).
Proof.
  rewrite Plugboard_new_connect.
  apply foldl_connect_letter_map; [apply omap_accepted|].
  intros k Hk. exists k. split; [done|]. by apply mapa0_letter.
Qed.




Lemma accepted_letter_pair x y :
  alphabet_letter (String x EmptyString) -> alphabet_letter (String y EmptyString) ->
  accepted (String x (String y EmptyString))
  = Some (toUpperCase (String x EmptyString), toUpperCase (String y EmptyString)).
Proof.
  intros Hx%includes_char Hy%includes_char. cbn [accepted].
  cbn [toUpperCase] in *. by rewrite Hx, Hy.
Qed.

Lemma Plugboard_new_eq pares :
  Plugboard.new pares = Plugboard.mk (foldl connect mapa0 (omap accepted pares)).
Proof.
  rewrite <- Plugboard_new_connect. by destruct (Plugboard.new pares).
Qed.

Lemma trocar_lookup p l y :
  includes ALPHABET l = true -> toUpperCase l = l -> Plugboard.mapa p !! l = Some y ->
  Plugboard.trocar p (str l) = Ret (str y).
Proof.
  intros Hin Hup E. unfold Plugboard.trocar. cbn [receiver bind].
  by rewrite Hup, Hin, E.
Qed.

(** X7: the last pair wins: whatever came before, the two letters of the
    last entry are swapped with each other; and a letter that no entry
    names is left alone. *)
Theorem last_pair_wins (pares : list string) (x y : ascii) (z : string) :
  alphabet_letter (String x EmptyString) -> alphabet_letter (String y EmptyString) ->
  z ∈ chars ALPHABET ->
  (Plugboard.trocar (Plugboard.new (pares ++ [String x (String y EmptyString)]))
     (str (toUpperCase (String x EmptyString)))
   = Ret (str (toUpperCase (String y EmptyString)))
   /\ Plugboard.trocar (Plugboard.new (pares ++ [String x (String y EmptyString)]))
        (str (toUpperCase (String y EmptyString)))
      = Ret (str (toUpperCase (String x EmptyString))))
  /\ ((forall par a b, par ∈ pares -> accepted par = Some (a, b) -> a <> z /\ b <> z) ->
      Plugboard.trocar (Plugboard.new pares) (str z) = Ret (str z)).
Proof.
  intros Hx Hy Hz. split.
  - rewrite Plugboard_new_eq, omap_app, foldl_app.
    change (omap accepted [String x (String y EmptyString)])
      with (match accepted (String x (String y EmptyString)) with
            | Some ab => [ab] | None => [] end).
    rewrite accepted_letter_pair by done. cbn [foldl].
    set (m := foldl connect mapa0 (omap accepted pares)).
    set (a := toUpperCase (String x EmptyString)) in *.
    set (b := toUpperCase (String y EmptyString)) in *.
    assert (Ha : includes ALPHABET a = true) by by apply includes_char.
    assert (Hb : includes ALPHABET b = true) by by apply includes_char.
    split; apply trocar_lookup; try done; try apply toUpperCase_idem;
      unfold connect; cbn [fst snd Plugboard.mapa].
    + destruct (decide (b = a)) as [->|N]; [by rewrite lookup_insert_eq|].
      by rewrite lookup_insert_ne, lookup_insert_eq.
    + by rewrite lookup_insert_eq.
  - intros Hfree. apply in_alphabet in Hz as (k & Hk & ->).
    apply trocar_lookup; [by apply includes_letter|by apply toUpperCase_letter|].
    rewrite Plugboard_new_eq. cbn [Plugboard.mapa].
    assert (H : forall l m,
      (forall ab, ab ∈ l -> ab.1 <> letter k /\ ab.2 <> letter k) ->
      m !! letter k = Some (letter k) ->
      foldl connect m l !! letter k = Some (letter k)).
    { clear. induction l as [|[a b] l IH]; intros m Hl Hm; [done|].
      cbn [foldl]. apply IH.
      - intros ab Hab. apply Hl. by right.
      - destruct (Hl (a, b)) as [? ?]; [by left|].
        by rewrite connect_other. }
    apply H; [|by apply mapa0_letter].
    intros [a b] (par & Hpar & Hacc)%list_elem_of_omap. by eapply Hfree.
Qed.

Lemma last_pair_wins_witness :
  alphabet_letter "a" /\ alphabet_letter "C" /\ "D"%string ∈ chars ALPHABET
  /\ Plugboard.trocar (Plugboard.new (["AB"] ++ ["aC"])) (str "A") = Ret (str "C")
  /\ Plugboard.trocar (Plugboard.new (["AB"] ++ ["aC"])) (str "C") = Ret (str "A").
Proof.
  assert (H1 : alphabet_letter "a").
  { apply (bool_decide_unpack _); vm_compute; exact Logic.I. }
  assert (H2 : alphabet_letter "C").
  { apply (bool_decide_unpack _); vm_compute; exact Logic.I. }
  assert (H3 : "D"%string ∈ chars ALPHABET).
  { apply (bool_decide_unpack _); vm_compute; exact Logic.I. }
  repeat (split; [assumption|]).
  exact (proj1 (last_pair_wins ["AB"] "a" "C" "D" H1 H2 H3)).
Defined.


Lemma accepted_toUpperCase par : accepted (toUpperCase par) = accepted par.
Proof.
  destruct par as [|x [|y [|??]]]; try done. cbn [accepted toUpperCase].
  by rewrite !upper_idem.
Qed.



(** ** More on the reflector *)

Lemma guard_non_capital a :
  String a EmptyString ∉ chars ALPHABET ->
  (Z.of_N (N_of_ascii a) - 65 <? 0) || (25 <? Z.of_N (N_of_ascii a) - 65) = true.
Proof.
  intros H. assert (E : includes ALPHABET (String a EmptyString) = false).
  { apply not_true_is_false. intros E. apply H. by apply includes_char. }
  revert E. clear. destruct a as [[] [] [] [] [] [] [] []]; vm_compute; congruence.
Qed.

(** X9: a reflector is built from any 26 characters.  It reflects by the
    first character of its argument: a capital letter goes to the character
    wired at its index; anything else, a small letter too, comes back
    unchanged; the empty string gives [undefined].  It never raises. *)
Theorem refletir_contract (w : string) (a : ascii) (rest : string) :
  String.length w = 26%nat ->
  Reflector.new w = Ret (Reflector.mk (toUpperCase w))
  /\ (String a EmptyString ∈ chars ALPHABET ->
      exists c,
        String.get (Z.to_nat (index_of (String a EmptyString))) (toUpperCase w) = Some c
        /\ Reflector.refletir (Reflector.mk (toUpperCase w)) (str (String a rest))
           = Ret (str (String c EmptyString)))
  /\ (String a EmptyString ∉ chars ALPHABET ->
      Reflector.refletir (Reflector.mk (toUpperCase w)) (str (String a rest))
      = Ret (str (String a rest)))
  /\ Reflector.refletir (Reflector.mk (toUpperCase w)) (str EmptyString)
     = Ret undefined.
Proof.
  intros Hlen. split; [unfold Reflector.new; by rewrite Hlen|].
  split; [|split; [|done]].
  - intros (k & Hk & E)%in_alphabet.
    destruct (at_defined (toUpperCase w) k) as [c Hc].
    { rewrite length_toUpperCase. lia. }
    exists c. rewrite E, index_of_letter by done. split.
    + unfold at_ in Hc. destruct (k <? 0); [done|].
      destruct (String.get _ _); congruence.
    + unfold Reflector.refletir. cbn [receiver bind].
      replace (charCodeAt0 (String a rest)) with (charCodeAt0 (letter k))
        by (by rewrite <- E).
      rewrite charCodeAt0_letter by done. unfold n65, gt. cbn [sub lt].
      replace (65 + k - 65) with k by lia.
      destruct (k <? 0) eqn:E1; [lia|]. destruct (25 <? k) eqn:E2; [lia|].
      cbn [orb Reflector.wiring]. by rewrite Hc.
  - intros H%guard_non_capital. unfold Reflector.refletir. cbn [receiver bind].
    unfold n65, gt. cbn [charCodeAt0 sub lt]. by rewrite H.
Qed.

Lemma refletir_contract_witness :
  String.length "YRUHQSLDPXNGOKMIEBFZCWVJAT" = 26%nat
  /\ ("a"%string ∉ chars ALPHABET)
  /\ Reflector.refletir (Reflector.mk (toUpperCase "YRUHQSLDPXNGOKMIEBFZCWVJAT")) (str "a")
     = Ret (str "a").
Proof.
  assert (H : ("a"%string ∉ chars ALPHABET)).
  { apply (bool_decide_unpack _); vm_compute; exact Logic.I. }
  split; [reflexivity|]. split; [exact H|].
  exact (proj1 (proj2 (proj2 (refletir_contract "YRUHQSLDPXNGOKMIEBFZCWVJAT" "a"
                                EmptyString eq_refl))) H).
Defined.

(** ** The signal path *)

Lemma route_path m k :
  machine_ok m = true -> 0 <= k < 26 ->
  Enigma.route m (letter k) = Ret (path_of m k).
Proof.
  intros Hm Hk. apply machine_ok_parts in Hm. unfold Enigma.route, path_of.
  destruct (Enigma.rotors m) as [[r0 r1] r2].
  destruct Hm as ([]%rotor_ok_pos & []%rotor_ok_pos & []%rotor_ok_pos & Hr & Hp).
  pose proof (plug_range _ k Hp Hk).
  rewrite trocar_letter by done. cbn [Enigma.pushed bind receiver].
  rewrite (passarParaFrente_letter r2 (pos r2)) by done.
  cbn [Enigma.pushed bind receiver].
  rewrite (passarParaFrente_letter r1 (pos r1)) by range.
  cbn [Enigma.pushed bind receiver].
  rewrite (passarParaFrente_letter r0 (pos r0)) by range.
  cbn [Enigma.pushed bind receiver].
  rewrite refletir_letter by range.
  cbn [Enigma.pushed bind receiver].
  rewrite (passarParaTras_letter r0 (pos r0)) by range.
  cbn [Enigma.pushed bind receiver].
  rewrite (passarParaTras_letter r1 (pos r1)) by range.
  cbn [Enigma.pushed bind receiver].
  rewrite (passarParaTras_letter r2 (pos r2)) by range.
  cbn [Enigma.pushed bind receiver].
  rewrite trocar_letter by range.
  cbn [Enigma.pushed bind receiver]. done.
Qed.

Lemma step_of_letter comp x y :
  0 <= x < 26 -> 0 <= y < 26 ->
  Enigma.step_of comp (letter x) (letter y)
  = mkStep comp (letter x) (letter y) (Num x) (Num y).
Proof.
  intros Hx Hy. unfold Enigma.step_of. rewrite !charCodeAt0_letter by done.
  unfold n65. cbn [sub]. do 2 f_equal; f_equal; lia.
Qed.

(** X10: on a machine in working order the signal path of a letter has
    the eleven stages in their order; it starts at the letter in upper
    case and ends at the output letter; every stage starts where the one
    before ended; and every stage records two letters of the alphabet with
    their indices. *)
Theorem signal_path_shape (m : Enigma.t) (c : string) :
  machine_ok m = true -> alphabet_letter c ->
  exists path,
    Enigma.encipherCharWithPath c m = (Ret path, Enigma._stepRotores m)
    /\ (component <$> steps path)
       = [input; plugboard_in; rotor_r; rotor_m; rotor_l; reflector_;
          rotor_l_back; rotor_m_back; rotor_r_back; plugboard_out; output]
    /\ inputLetter path = toUpperCase c
    /\ (step_inputLetter <$> head (steps path)) = Some (toUpperCase c)
    /\ (step_outputLetter <$> last (steps path)) = Some (outputLetter path)
    /\ (forall i s s', steps path !! i = Some s -> steps path !! S i = Some s' ->
          step_outputLetter s = step_inputLetter s')
    /\ Forall (fun s =>
                 step_inputLetter s ∈ chars ALPHABET
                 /\ step_outputLetter s ∈ chars ALPHABET
                 /\ inputIndex s = Num (index_of (step_inputLetter s))
                 /\ outputIndex s = Num (index_of (step_outputLetter s)))
              (steps path).
Proof.
  intros Hm (k & Hk & E)%in_alphabet.
  pose proof (stepRotores_ok m Hm) as Hm'.
  exists (path_of (Enigma._stepRotores m) k). split.
  { unfold Enigma.encipherCharWithPath.
    by rewrite E, includes_letter, route_path. }
  rewrite E. generalize dependent (Enigma._stepRotores m). clear m Hm E.
  intros m Hm. pose proof (machine_ok_parts m Hm) as Hparts. unfold path_of.
  destruct (Enigma.rotors m) as [[r0 r1] r2].
  destruct Hparts as ([]%rotor_ok_pos & []%rotor_ok_pos & []%rotor_ok_pos & Hr & Hp).
  pose proof (plug_range _ k Hp Hk).
  cbv zeta. rewrite !step_of_letter by range.
  cbn [steps inputLetter outputLetter].
  split; [done|]. split; [done|]. split; [done|]. split; [done|]. split.
  - intros i s s' Hs Hs'.
    do 11 (destruct i as [|i]; [cbn in Hs, Hs'; by simplify_eq|]). done.
  - repeat (apply Forall_cons; split;
      [cbn [step_inputLetter step_outputLetter inputIndex outputIndex];
       rewrite !index_of_letter by range;
       repeat split; try done; apply in_alphabet; eexists; (split; [|done]); range|]).
    apply Forall_nil_2.
Qed.

Lemma signal_path_shape_witness :
  machine_ok default_machine = true /\ alphabet_letter "g"
  /\ exists path,
    Enigma.encipherCharWithPath "g" default_machine
    = (Ret path, Enigma._stepRotores default_machine)
    /\ (component <$> steps path)
       = [input; plugboard_in; rotor_r; rotor_m; rotor_l; reflector_;
          rotor_l_back; rotor_m_back; rotor_r_back; plugboard_out; output].
Proof.
  assert (H : alphabet_letter "g").
  { apply (bool_decide_unpack _); vm_compute; exact Logic.I. }
  split; [reflexivity|]. split; [exact H|].
  destruct (signal_path_shape default_machine "g" eq_refl H) as (path & E & C & _).
  exists path. split; [exact E|exact C].
Defined.

(** ** One keystroke pairs the letters *)

Lemma no_fixed_point_tbl w k :
  no_fixed_point w = true -> 0 <= k < 26 -> tbl w k <> k.
Proof.
  intros H Hk. unfold no_fixed_point in H.
  apply forallb_range26 with (k := k) in H; [|done]. lia.
Qed.

Lemma cipher_no_fixed_point m k :
  machine_reciprocal m = true ->
  no_fixed_point (Reflector.wiring (Enigma.reflector m)) = true ->
  0 <= k < 26 -> cipher m k <> k.
Proof.
  intros (Hm & Hrr & Hpp)%machine_reciprocal_parts Hnf Hk.
  apply machine_ok_parts in Hm. unfold cipher.
  destruct (Enigma.rotors m) as [[r0 r1] r2].
  destruct Hm as ([]%rotor_ok_pos & []%rotor_ok_pos & []%rotor_ok_pos & Hr & Hp).
  pose proof (plug_range _ k Hp Hk) as Ha.
  set (a := plug (Enigma.plugboard m) k) in *.
  set (d := via (Rotor.wiring r0) (pos r0)
              (via (Rotor.wiring r1) (pos r1) (via (Rotor.wiring r2) (pos r2) a))).
  set (e := tbl (Reflector.wiring (Enigma.reflector m)) d).
  assert (Hd : 0 <= d < 26) by apply via_range.
  assert (He : 0 <= e < 26) by by apply tbl_range.
  intros Hfix. apply (no_fixed_point_tbl _ d Hnf Hd). fold e.
  apply (f_equal (plug (Enigma.plugboard m))) in Hfix.
  rewrite plug_plug in Hfix by range. fold a in Hfix.
  apply (f_equal (fun x => via (Rotor.wiring r0) (pos r0)
                             (via (Rotor.wiring r1) (pos r1)
                                (via (Rotor.wiring r2) (pos r2) x)))) in Hfix.
  cbv beta in Hfix. fold d in Hfix. rewrite <- Hfix.
  rewrite (via_inverse (Rotor.inverseWiring r2) (Rotor.wiring r2)) by range.
  rewrite (via_inverse (Rotor.inverseWiring r1) (Rotor.wiring r1)) by range.
  by rewrite (via_inverse (Rotor.inverseWiring r0) (Rotor.wiring r0)) by range.
Qed.

(** X11: on a machine in working order whose plugboard is an involution
    and whose reflector is an involution without fixed point, as every
    machine built from
    settings with letter positions and pairs that share no letter is, a
    keystroke never gives the letter itself, and typing the output on the
    same machine gives the letter back; the machine is again such a machine
    after the keystroke. *)
Theorem keystroke_pairs_letters (m : Enigma.t) (x : string) :
  machine_reciprocal m = true ->
  no_fixed_point (Reflector.wiring (Enigma.reflector m)) = true ->
  alphabet_letter x ->
  (exists y, y ∈ chars ALPHABET
     /\ Enigma.encipherChar x m = (Ret y, Enigma._stepRotores m)
     /\ y <> toUpperCase x
     /\ Enigma.encipherChar y m = (Ret (toUpperCase x), Enigma._stepRotores m))
  /\ machine_reciprocal (Enigma._stepRotores m) = true
  /\ no_fixed_point (Reflector.wiring (Enigma.reflector (Enigma._stepRotores m))) = true.
Proof.
  intros Hm Hnf (k & Hk & E)%in_alphabet.
  pose proof (machine_reciprocal_parts _ Hm) as (Hok & _).
  pose proof (stepRotores_reciprocal m Hm) as Hm'.
  pose proof (machine_reciprocal_parts _ Hm') as (Hok' & _).
  destruct (stepRotores_frame m) as [Efr _].
  split; [|by rewrite Efr].
  pose proof (cipher_range _ k Hok' Hk) as Hr.
  exists (letter (cipher (Enigma._stepRotores m) k)). split; [|split; [|split]].
  - apply in_alphabet. eauto.
  - by apply encipherChar_letter.
  - rewrite E. intros Heq%letter_inj; [|done..].
    revert Heq. apply cipher_no_fixed_point; [done| |done]. by rewrite Efr.
  - rewrite (encipherChar_letter _ m (cipher (Enigma._stepRotores m) k))
      by (done || by apply toUpperCase_letter).
    by rewrite cipher_involutive, E.
Qed.

Lemma setPosicoes_frame ps m :
  Enigma.reflector (Enigma.setPosicoes ps m).2 = Enigma.reflector m
  /\ Enigma.plugboard (Enigma.setPosicoes ps m).2 = Enigma.plugboard m.
Proof.
  unfold Enigma.setPosicoes. destruct ps as [|p0 [|p1 [|p2 [|? ?]]]]; try done.
  destruct (Enigma.rotors m) as [[r0 r1] r2].
  destruct (Rotor.setPosicaoPorLetra p0 r0) as [[] ?]; [|done].
  destruct (Rotor.setPosicaoPorLetra p1 r1) as [[] ?]; [|done].
  by destruct (Rotor.setPosicaoPorLetra p2 r2) as [[] ?].
Qed.

Lemma initEnigma_reflector config m :
  initEnigma config = Ret m ->
  REFLECTOR_CONFIGS (cfg_reflector config) = Ret (Enigma.reflector m).
Proof.
  unfold initEnigma. destruct (cfg_rotors config) as [[t0 t1] t2].
  destruct (cfg_positions config) as [[p0 p1] p2].
  destruct (ROTOR_CONFIGS t0) as [r0|]; [|done].
  destruct (ROTOR_CONFIGS t1) as [r1|]; [|done].
  destruct (ROTOR_CONFIGS t2) as [r2|]; [|done].
  destruct (REFLECTOR_CONFIGS (cfg_reflector config)) as [rf|]; [|done].
  cbn [bind Enigma.new].
  pose proof (setPosicoes_frame [p0; p1; p2]
                (Enigma.mk rf (r0, r1, r2)
                   (Plugboard.new (cfg_plugboardPairs config)))) as [Hf _].
  destruct (Enigma.setPosicoes _ _) as [[] m']; [|done].
  intros [= <-]. cbn [snd Enigma.reflector] in Hf. by rewrite Hf.
Qed.

Lemma REFLECTOR_CONFIGS_no_fixed_point t r :
  REFLECTOR_CONFIGS t = Ret r -> no_fixed_point (Reflector.wiring r) = true.
Proof. destruct t; intros [= <-]; by vm_compute. Qed.

Lemma initEnigma_pairs_letters config :
  letter_positions config ->
  no_letter_reused (cfg_plugboardPairs config) = true ->
  exists m, initEnigma config = Ret m
    /\ machine_reciprocal m = true
    /\ no_fixed_point (Reflector.wiring (Enigma.reflector m)) = true.
Proof.
  intros Hpos Hplug. unfold letter_positions in Hpos.
  pose proof (initEnigma_reciprocal config) as H.
  destruct (cfg_positions config) as [[p0 p1] p2]. destruct Hpos as (H0 & H1 & H2).
  destruct (H H0 H1 H2 Hplug) as (m & E & Hm). exists m. split; [done|].
  split; [done|]. eapply REFLECTOR_CONFIGS_no_fixed_point.
  by apply initEnigma_reflector.
Qed.

Lemma keystroke_pairs_letters_witness :
  machine_reciprocal default_machine = true
  /\ no_fixed_point (Reflector.wiring (Enigma.reflector default_machine)) = true
  /\ alphabet_letter "a"
  /\ exists y, y ∈ chars ALPHABET
     /\ Enigma.encipherChar "a" default_machine
        = (Ret y, Enigma._stepRotores default_machine)
     /\ y <> "A"%string
     /\ Enigma.encipherChar y default_machine
        = (Ret "A"%string, Enigma._stepRotores default_machine).
Proof.
  assert (H : alphabet_letter "a").
  { apply (bool_decide_unpack _); vm_compute; exact Logic.I. }
  split; [reflexivity|]. split; [reflexivity|]. split; [exact H|].
  exact (proj1 (keystroke_pairs_letters default_machine "a" eq_refl eq_refl H)).
Defined.

(** ** Texts *)

Lemma chars_append s t : chars (String.append s t) = chars s ++ chars t.
Proof. induction s as [|a s IH]; [done|]. rewrite append_cons. cbn. by rewrite IH. Qed.

Lemma append_assoc s t u :
  String.append (String.append s t) u = String.append s (String.append t u).
Proof. induction s as [|a s IH]; [done|]. by rewrite !append_cons, IH. Qed.

Lemma encipherText_loop_app l1 l2 acc m :
  Enigma.encipherText_loop (l1 ++ l2) acc m
  = match Enigma.encipherText_loop l1 acc m with
    | (Ret r, m1) => Enigma.encipherText_loop l2 r m1
    | (Throw e, m1) => (Throw e, m1)
    end.
Proof.
  revert acc m. induction l1 as [|ch l1 IH]; intros acc m; [done|].
  cbn [app Enigma.encipherText_loop].
  by destruct (Enigma.encipherChar ch m) as [[out|e] m'].
Qed.

Lemma encipherText_loop_acc l acc m :
  Enigma.encipherText_loop l acc m
  = match Enigma.encipherText_loop l EmptyString m with
    | (Ret r, m') => (Ret (String.append acc r), m')
    | (Throw e, m') => (Throw e, m')
    end.
Proof.
  revert acc m. induction l as [|ch l IH]; intros acc m.
  - cbn. by rewrite append_empty.
  - cbn [Enigma.encipherText_loop].
    destruct (Enigma.encipherChar ch m) as [[out|e] m']; [|done].
    rewrite (IH (String.append acc out)), (IH (String.append EmptyString out)).
    destruct (Enigma.encipherText_loop l EmptyString m') as [[r|e] m'']; [|done].
    by rewrite append_assoc.
Qed.

(** X12: enciphering a text in two parts, the second on the machine as
    the first part left it, gives the same as enciphering it in one go,
    whatever the machine; an error in the first part is the error of the
    whole. *)
Theorem encipherText_append (s1 s2 : string) (m : Enigma.t) :
  Enigma.encipherText (String.append s1 s2) m
  = match Enigma.encipherText s1 m with
    | (Ret c1, m1) =>
        match Enigma.encipherText s2 m1 with
        | (Ret c2, m2) => (Ret (String.append c1 c2), m2)
        | (Throw e, m2) => (Throw e, m2)
        end
    | (Throw e, m1) => (Throw e, m1)
    end.
Proof.
  unfold Enigma.encipherText. rewrite chars_append, encipherText_loop_app.
  destruct (Enigma.encipherText_loop (chars s1) EmptyString m) as [[c1|e] m1]; [|done].
  apply encipherText_loop_acc.
Qed.




(** ** The double step *)

Lemma estaNoNotch_letter r p :
  Rotor.posicao r = Num p -> 0 <= p < 26 ->
  Rotor.estaNoNotch r = true <-> Rotor.notchChar r = letter p.
Proof.
  intros E Hp. unfold Rotor.estaNoNotch. rewrite E, at_ALPHABET by done.
  cbn [strict_eq]. rewrite String.eqb_eq. split; congruence.
Qed.

(** X14: on a machine in working order a middle rotor that stands on its
    notch leaves it at the keystroke and takes the left rotor one place
    along; when the middle rotor is not on its notch the left rotor stays
    as it is. *)
Theorem double_step (m : Enigma.t) :
  machine_ok m = true ->
  (Rotor.estaNoNotch (Enigma.rotors m).1.2 = true ->
   Rotor.estaNoNotch (Enigma.rotors (Enigma._stepRotores m)).1.2 = false
   /\ (Enigma.rotors (Enigma._stepRotores m)).1.1 = Rotor.girar (Enigma.rotors m).1.1)
  /\ (Rotor.estaNoNotch (Enigma.rotors m).1.2 = false ->
      (Enigma.rotors (Enigma._stepRotores m)).1.1 = (Enigma.rotors m).1.1).
Proof.
  intros Hm. apply machine_ok_parts in Hm. unfold Enigma._stepRotores.
  destruct (Enigma.rotors m) as [[r0 r1] r2]. cbn [fst snd].
  destruct Hm as (_ & [E1 H1 _ _ _ _]%rotor_ok_pos & _).
  split.
  - intros Hn. rewrite Hn. pose proof Hn as Hnotch.
    apply (estaNoNotch_letter r1 (pos r1)) in Hnotch; [|done..].
    assert (Hoff : forall q, 0 <= q < 26 -> q <> pos r1 ->
              Rotor.estaNoNotch (Rotor.set_posicao r1 (Num q)) = false).
    { intros q Hq Hne. apply not_true_is_false.
      intros Hq'%(estaNoNotch_letter _ q); [|done..]. cbn in Hq'.
      rewrite Hnotch in Hq'. apply letter_inj in Hq'; [lia|done..]. }
    rewrite (girar_posicao r1 (pos r1)) by done.
    assert (Hb : 0 <= (pos r1 + 1) mod 26 < 26) by (apply Z.mod_pos_bound; lia).
    destruct (Rotor.estaNoNotch r2); cbn [Enigma.rotors Enigma.set_rotors fst snd].
    + rewrite (girar_posicao _ ((pos r1 + 1) mod 26)) by done. split; [|done].
      apply Hoff; [apply Z.mod_pos_bound; lia|].
      rewrite Zplus_mod_idemp_l.
      destruct (decide (pos r1 + 1 + 1 < 26)).
      * rewrite Z.mod_small; lia.
      * replace (pos r1 + 1 + 1) with (pos r1 + 2 - 26 + 1 * 26) by lia.
        rewrite Z.mod_add, Z.mod_small; lia.
    + split; [|done]. apply Hoff; [done|].
      destruct (decide (pos r1 + 1 < 26)).
      * rewrite Z.mod_small; lia.
      * replace (pos r1 + 1) with 26 by lia. rewrite Z_mod_same_full. lia.
  - intros ->. by destruct (Rotor.estaNoNotch r2).
Qed.

Lemma double_step_witness :
  machine_ok (at_positions default_machine (Num 0, Num 4, Num 0)) = true
  /\ Rotor.estaNoNotch
       (Enigma.rotors (at_positions default_machine (Num 0, Num 4, Num 0))).1.2 = true
  /\ Rotor.estaNoNotch
       (Enigma.rotors (Enigma._stepRotores
          (at_positions default_machine (Num 0, Num 4, Num 0)))).1.2 = false.
Proof.
  split; [reflexivity|]. split; [reflexivity|].
  exact (proj1 (proj1 (double_step
           (at_positions default_machine (Num 0, Num 4, Num 0)) eq_refl) eq_refl)).
Defined.

(** ** The plain JavaScript engine *)

Lemma trocar_str p s : exists s', Plugboard.trocar p (str s) = Ret (str s').
Proof.
  unfold Plugboard.trocar. cbn [receiver bind].
  destruct (negb _); eauto.
Qed.

Lemma passarParaFrente_undefined r : Rotor.passarParaFrente r undefined = Throw TypeError.
Proof. done. Qed.

Lemma passarParaTras_undefined r : Rotor.passarParaTras r undefined = Throw TypeError.
Proof. done. Qed.

Lemma refletir_undefined r : Reflector.refletir r undefined = Throw TypeError.
Proof. done. Qed.

Ltac stage f :=
  match goal with
  | |- context [f ?r (str ?c)] =>
      destruct (f r (str c)) as [[|?]|?];
      cbn [bind Enigma.pushed receiver outputLetter];
      rewrite ?passarParaFrente_undefined, ?passarParaTras_undefined,
              ?refletir_undefined;
      cbn [bind]; try reflexivity
  end.

Lemma route_plain m c :
  (let '(rotor0, rotor1, rotor2) := Enigma.rotors m in
   let! c := Plugboard.trocar (Enigma.plugboard m) (str c) in
   let! c := Rotor.passarParaFrente rotor2 c in
   let! c := Rotor.passarParaFrente rotor1 c in
   let! c := Rotor.passarParaFrente rotor0 c in
   let! c := Reflector.refletir (Enigma.reflector m) c in
   let! c := Rotor.passarParaTras rotor0 c in
   let! c := Rotor.passarParaTras rotor1 c in
   let! c := Rotor.passarParaTras rotor2 c in
   let! c := Plugboard.trocar (Enigma.plugboard m) c in
   Ret c)
  = let! result := Enigma.route m c in Ret (str (outputLetter result)).
Proof.
  unfold Enigma.route. destruct (Enigma.rotors m) as [[r0 r1] r2]. cbv zeta.
  destruct (trocar_str (Enigma.plugboard m) c) as [c1 ->].
  cbn [bind Enigma.pushed receiver].
  stage Rotor.passarParaFrente. stage Rotor.passarParaFrente.
  stage Rotor.passarParaFrente. stage Reflector.refletir.
  stage Rotor.passarParaTras. stage Rotor.passarParaTras.
  stage Rotor.passarParaTras.
  match goal with
  | |- context [Plugboard.trocar ?p (str ?c)] =>
      destruct (trocar_str p c) as [c9 ->]
  end.
  reflexivity.
Qed.

Lemma plain_encipherChar letra m :
  EnigmaJS.encipherChar letra m
  = (let! out := (Enigma.encipherChar letra m).1 in Ret (str out),
     (Enigma.encipherChar letra m).2).
Proof.
  unfold EnigmaJS.encipherChar, Enigma.encipherChar, Enigma.encipherCharWithPath.
  cbv zeta. destruct (negb _); [done|]. cbn [fst snd].
  pose proof (route_plain (Enigma._stepRotores m) (toUpperCase letra)) as E.
  destruct (Enigma.rotors (Enigma._stepRotores m)) as [[r0 r1] r2].
  rewrite E. by destruct (Enigma.route _ _).
Qed.

Lemma plain_encipherText_loop chs acc m :
  EnigmaJS.encipherText_loop chs acc m = Enigma.encipherText_loop chs acc m.
Proof.
  revert acc m. induction chs as [|ch chs IH]; intros acc m; [done|].
  cbn [EnigmaJS.encipherText_loop Enigma.encipherText_loop].
  rewrite plain_encipherChar.
  destruct (Enigma.encipherChar ch m) as [[out|e] m']; cbn [fst snd bind]; [|done].
  apply IH.
Qed.

(** X15: the machine of enigma.js and the machine of the front end
    encipher alike: on every machine and every input, a character gives
    the same outcome and the same rotor positions, and so does a text. *)
Theorem plain_engine_agrees (m : Enigma.t) (letra texto : string) :
  EnigmaJS.encipherChar letra m
  = (let! out := (Enigma.encipherChar letra m).1 in Ret (str out),
     (Enigma.encipherChar letra m).2)
  /\ EnigmaJS.encipherText texto m = Enigma.encipherText texto m.
Proof.
  split; [apply plain_encipherChar|].
  unfold EnigmaJS.encipherText, Enigma.encipherText. apply plain_encipherText_loop.
Qed.

Lemma montar_default : EnigmaJS.montar = Ret default_machine.
Proof. by vm_compute. Qed.

Lemma default_machine_reciprocal : machine_reciprocal default_machine = true.
Proof. by vm_compute. Qed.

(** X16: the command line test of enigma.js prints, for every text typed,
    the text in upper case twice, as the text to encipher and as the
    deciphered text, and between them a ciphertext of the same length. *)
Theorem cli_round_trip (textoClaro : string) :
  exists cifrado,
    EnigmaJS.cli textoClaro
    = Ret (toUpperCase textoClaro, cifrado, toUpperCase textoClaro)
    /\ String.length cifrado = String.length (toUpperCase textoClaro).
Proof.
  exists (text_spec default_machine (toUpperCase textoClaro)).1.
  assert (E : forall t, EnigmaJS.encipherText t default_machine
                        = (Ret (text_spec default_machine t).1,
                           (text_spec default_machine t).2)).
  { intros t. unfold EnigmaJS.encipherText. rewrite plain_encipherText_loop.
    apply (encipherText_spec t default_machine default_machine_ok). }
  unfold EnigmaJS.cli. rewrite montar_default. cbn [bind].
  rewrite E. cbn [fst bind]. rewrite E. cbn [fst bind].
  rewrite text_spec_reciprocal by apply default_machine_reciprocal. cbn [fst].
  by rewrite toUpperCase_idem, text_spec_length.
Qed.

(** ** The rewritten engine *)

Lemma normalizeIndex_mod z : Refactored.normalizeIndex (Num z) = Num (z mod 26).
Proof.
  cbn. f_equal.
  pose proof (Z.rem_bound_abs z 26 ltac:(lia)) as Hb.
  pose proof (Z.quot_rem' z 26) as Hq.
  rewrite Z.rem_mod_nonneg by lia.
  replace (Z.rem z 26 + 26) with (z + (1 - Z.quot z 26) * 26) by lia.
  apply Z.mod_add. lia.
Qed.

Lemma indexToLetter_mod z : Refactored.indexToLetter (Num z) = str (letter (z mod 26)).
Proof.
  change (Refactored.indexToLetter (Num z))
    with (at_ ALPHABET (Refactored.normalizeIndex (Num z))).
  rewrite normalizeIndex_mod. apply at_ALPHABET, Z.mod_pos_bound. lia.
Qed.

Lemma letterToIndex_letter k : 0 <= k < 26 -> Refactored.letterToIndex (letter k) = Num k.
Proof.
  intros Hk. unfold Refactored.letterToIndex, Refactored.ASCII_OFFSET.
  rewrite charCodeAt0_letter by done. cbn. f_equal. lia.
Qed.











Lemma isValidLetter_char a :
  Refactored.isValidLetter (toUpperCase (String a EmptyString))
  = includes ALPHABET (toUpperCase (String a EmptyString)).
Proof.
  unfold Refactored.isValidLetter. cbn [toUpperCase String.length].
  by rewrite upper_idem.
Qed.







(** *** The factories *)

Lemma Rotor_new_at config x :
  Refactored.Rotor_new config x
  = let! r := Refactored.Rotor_new config (Num 0) in
    Ret (Refactored.set_position r (Refactored.normalizeIndex x)).
Proof.
  unfold Refactored.Rotor_new.
  destruct (Refactored.Rotor_validateWiring _); [|done]. cbn [bind].
  by destruct (Refactored.computeInverseWiring _).
Qed.

Lemma create_A t :
  exists r, Refactored.RotorFactory.create t "A" = Ret r
    /\ ROTOR_CONFIGS t = Ret (legacy_rotor r)
    /\ Refactored._position r = Num 0.
Proof.
  destruct t; (eexists; split; [vm_compute; reflexivity|]); split; vm_compute; reflexivity.
Qed.

Lemma create_at t position :
  exists r, Refactored.RotorFactory.create t "A" = Ret r
    /\ Refactored.RotorFactory.create t position
       = Ret (Refactored.set_position r
                (Refactored.normalizeIndex (Refactored.letterToIndex position))).
Proof.
  destruct (create_A t) as (r & E & _). exists r. split; [done|].
  unfold Refactored.RotorFactory.create in *. rewrite Rotor_new_at.
  change (Refactored.letterToIndex "A") with (Num 0) in E. by rewrite E.
Qed.

Lemma small_letter_index k :
  0 <= k < 26 ->
  Refactored.normalizeIndex (Refactored.letterToIndex (small_letter k))
  = Num ((k + 6) mod 26).
Proof.
  intros Hk. unfold Refactored.letterToIndex, small_letter. cbn [charCodeAt0].
  rewrite N_ascii_embedding by lia. rewrite Z2N.id by lia.
  cbn [sub Refactored.ASCII_OFFSET]. rewrite normalizeIndex_mod. f_equal.
  replace (97 + k - 65) with (k + 6 + 1 * 26) by lia. apply Z.mod_add. lia.
Qed.

Lemma small_letter_upper k : 0 <= k < 26 -> toUpperCase (small_letter k) = letter k.
Proof.
  intros Hk. apply (range26 (fun k => toUpperCase (small_letter k) = letter k)); [|done].
  by_compute.
Qed.

(** X18: the rotor factory reads the position letter by its character
    code, without the upper-casing and the check of [setPosition]: a
    capital letter puts the rotor at that letter, a small letter puts it
    six places past the letter [setPosition] reads it as. *)
Theorem factory_position (id : RotorType) (k : Z) :
  0 <= k < 26 ->
  (exists r, Refactored.RotorFactory.create id (letter k) = Ret r
     /\ Refactored._position r = Num k)
  /\ (exists r, Refactored.RotorFactory.create id (small_letter k) = Ret r
        /\ Refactored._position r = Num ((k + 6) mod 26)
        /\ Refactored._position (Refactored.setPosition (small_letter k) r).2 = Num k).
Proof.
  intros Hk. split.
  - destruct (create_at id (letter k)) as (r & _ & ->). eexists. split; [done|].
    cbn [Refactored.set_position Refactored._position].
    rewrite letterToIndex_letter, normalizeIndex_mod, Z.mod_small by lia. done.
  - destruct (create_at id (small_letter k)) as (r & _ & ->). eexists.
    split; [done|]. cbn [Refactored.set_position Refactored._position].
    split; [by apply small_letter_index|].
    assert (Hv : alphabet_letter (small_letter k)).
    { unfold alphabet_letter. rewrite small_letter_upper by done.
      apply in_alphabet. eauto. }
    match goal with
    | |- context [Refactored.setPosition _ ?r'] =>
        destruct (Refactored_setPosition_contract (small_letter k) r') as [Hc _];
          rewrite (Hc Hv)
    end.
    cbn [snd Refactored._position].
    by rewrite small_letter_upper, index_of_letter.
Qed.

Lemma factory_position_witness :
  exists r, Refactored.RotorFactory.create II (small_letter 0) = Ret r
    /\ Refactored._position r = Num 6
    /\ Refactored._position (Refactored.setPosition (small_letter 0) r).2 = Num 0.
Proof. exact (proj2 (factory_position II 0 ltac:(lia))). Defined.

Lemma buildMappings_legacy pairs :
  Refactored.buildMappings pairs = Plugboard.mapa (Plugboard.new pairs).
Proof.
  unfold Refactored.buildMappings, Plugboard.new. cbn [Plugboard.mapa].
  generalize (foldl (fun mapa letra => <[letra := letra]> mapa)
                (∅ : gmap string string) (chars ALPHABET)).
  induction pairs as [|pair pairs IH]; intros m0; [done|]. cbn [foldl].
  rewrite <- IH. f_equal.
  destruct pair as [|x [|y [|? ?]]]; try done.
  by rewrite !isValidLetter_char.
Qed.






(** *** The parts of the rewritten engine *)







(** X22: a rewritten rotor whose wiring holds letters sends every
    non-empty string to a capital letter, in both directions and at every
    integer position: it neither fails nor returns [undefined]. *)
Theorem forward_total (r : Refactored.Rotor) (p : Z) (a : ascii) (rest : string) :
  Refactored._position r = Num p ->
  lettersb (Refactored._wiring r) = true ->
  lettersb (Refactored._inverseWiring r) = true ->
  (exists k, 0 <= k < 26
     /\ Refactored.forward r (str (String a rest)) = Ret (str (letter k)))
  /\ (exists k, 0 <= k < 26
        /\ Refactored.backward r (str (String a rest)) = Ret (str (letter k))).
Proof.
  intros E Hw Hi.
  assert (H : forall w, lettersb w = true ->
    exists k, 0 <= k < 26 /\
      (let! l := receiver (str (String a rest)) in
       let inputIndex := Refactored.letterToIndex l in
       let offsetIndex := Refactored.normalizeIndex (add inputIndex (Num p)) in
       let! outputLetter := receiver (at_ w offsetIndex) in
       let outputIndex := Refactored.letterToIndex outputLetter in
       let finalIndex := Refactored.normalizeIndex (sub outputIndex (Num p)) in
       Ret (Refactored.indexToLetter finalIndex)) = Ret (str (letter k))).
  { intros w Hl. cbn [receiver bind]. cbv zeta.
    unfold Refactored.letterToIndex at 1.
    cbn [charCodeAt0 sub add Refactored.ASCII_OFFSET]. rewrite normalizeIndex_mod.
    set (x := (_ mod 26)).
    assert (Hx : 0 <= x < 26) by (apply Z.mod_pos_bound; lia).
    destruct (lettersb_at w _ Hl Hx) as [-> Hj]. cbn [receiver bind].
    rewrite letterToIndex_letter by done. cbn [sub].
    rewrite normalizeIndex_mod, indexToLetter_mod.
    eexists. split; [|done]. apply Z.mod_pos_bound. lia. }
  unfold Refactored.forward, Refactored.backward. rewrite E. split; by apply H.
Qed.

Lemma forward_total_witness :
  exists k, 0 <= k < 26
    /\ Refactored.forward
         (Refactored.mkRotor I "EKMFLGDQVZNTOWYHXUSPAIBRCJ" "UWYGADFPVZBECKMTHXSLRINQOJ"
            "Q" (Num (-40)))
         (str " ") = Ret (str (letter k)).
Proof.
  exact (proj1 (forward_total
    (Refactored.mkRotor I "EKMFLGDQVZNTOWYHXUSPAIBRCJ" "UWYGADFPVZBECKMTHXSLRINQOJ"
       "Q" (Num (-40))) (-40) " " EmptyString eq_refl eq_refl eq_refl)).
Defined.

Lemma identity_keys (ls : list string) (m0 : gmap string string) key v :
  foldl (fun m l => <[l := l]> m) m0 ls !! key = Some v ->
  key ∈ ls \/ m0 !! key = Some v.
Proof.
  revert m0. induction ls as [|l ls IH]; intros m0 H; [by right|].
  cbn [foldl] in H. destruct (IH _ H) as [Hin|Hm].
  - left. by right.
  - destruct (decide (l = key)) as [->|Hne].
    + left. by left.
    + rewrite lookup_insert_ne in Hm by done. by right.
Qed.

Lemma connect_keys m ab key v :
  (exists par, accepted par = Some ab) ->
  (forall key v, m !! key = Some v -> key ∈ chars ALPHABET) ->
  connect m ab !! key = Some v -> key ∈ chars ALPHABET.
Proof.
  intros [par Hpar] Hm. destruct ab as [a b].
  destruct (accepted_letters _ _ _ Hpar) as [(i & Hi & ->) (j & Hj & ->)].
  unfold connect. cbn [fst snd]. intros H.
  destruct (decide (letter j = key)) as [<-|Hb]; [apply in_alphabet; eauto|].
  rewrite lookup_insert_ne in H by done.
  destruct (decide (letter i = key)) as [<-|Ha]; [apply in_alphabet; eauto|].
  rewrite lookup_insert_ne in H by done. eauto.
Qed.

Lemma Plugboard_new_keys pairs key v :
  Plugboard.mapa (Plugboard.new pairs) !! key = Some v -> key ∈ chars ALPHABET.
Proof.
  rewrite Plugboard_new_connect. pose proof (omap_accepted pairs) as Hacc.
  revert key v. generalize dependent (omap accepted pairs). intros l.
  assert (H0 : forall key v, mapa0 !! key = Some v -> key ∈ chars ALPHABET).
  { intros key v [H|H]%identity_keys; [done|]. by rewrite lookup_empty in H. }
  revert H0. generalize mapa0.
  induction l as [|ab l IH]; intros m Hm Hacc key v; cbn [foldl]; [by eauto|].
  inversion Hacc as [|? ? Hab Hl]; subst.
  apply IH; [|done]. intros key' v'. by apply connect_keys.
Qed.

(** X23: [isConnected] holds of every string that is not a letter,
    whatever the plugboard entries, and of a letter exactly when the
    plugboard sends it to another letter. *)
Theorem isConnected_contract (pairs : list string) (letter_ : string) :
  (toUpperCase letter_ ∉ chars ALPHABET ->
   Refactored.isConnected (Refactored.Plugboard_new pairs) letter_ = true)
  /\ (forall k, 0 <= k < 26 -> toUpperCase letter_ = letter k ->
      Refactored.isConnected (Refactored.Plugboard_new pairs) letter_
      = negb (plug (Plugboard.new pairs) k =? k)).
Proof.
  unfold Refactored.isConnected. cbn [Refactored.Plugboard_new Refactored._mappings].
  rewrite buildMappings_legacy. cbv zeta. split.
  - intros Hn. destruct (_ !! _) as [l|] eqn:E; [|done].
    by apply Plugboard_new_keys in E.
  - intros k Hk ->.
    destruct (plug_lookup _ k (Plugboard_new_ok pairs) Hk) as [-> Hj].
    destruct (Z.eqb_spec (plug (Plugboard.new pairs) k) k) as [->|Hne].
    + by rewrite String.eqb_refl.
    + cbn [negb]. apply negb_true_iff, String.eqb_neq.
      intros Heq. by apply letter_inj in Heq.
Qed.

Lemma isConnected_contract_witness :
  (toUpperCase "1" ∉ chars ALPHABET)
  /\ Refactored.isConnected (Refactored.Plugboard_new ["AB"]) "1" = true
  /\ Refactored.isConnected (Refactored.Plugboard_new ["AB"]) "c" = false.
Proof.
  assert (H : toUpperCase "1" ∉ chars ALPHABET) by by_compute.
  split; [exact H|]. split.
  - exact (proj1 (isConnected_contract ["AB"] "1") H).
  - exact (proj2 (isConnected_contract ["AB"] "c") 2 ltac:(lia) eq_refl).
Defined.

(** ** The state updates of the user interface *)

(** X24: turning a rotor wheel of the user interface from a capital letter
    gives the next (or the previous) capital letter, around the alphabet,
    and turning it back restores the positions. *)
Theorem rotatePosition_round_trip (index : nat) (direction : Z) (prev : list value)
    (k : Z) :
  prev !! index = Some (str (letter k)) -> 0 <= k < 26 ->
  direction = 1 \/ direction = -1 ->
  UseEnigma.rotatePosition index direction prev
  = Ret (<[index := str (letter ((k + direction) mod 26))]> prev)
  /\ (let! next := UseEnigma.rotatePosition index direction prev in
      UseEnigma.rotatePosition index (- direction) next) = Ret prev.
Proof.
  intros Hprev Hk Hd.
  assert (Hone : forall l d j, l !! index = Some (str (letter j)) -> 0 <= j < 26 ->
            d = 1 \/ d = -1 ->
            UseEnigma.rotatePosition index d l
            = Ret (<[index := str (letter ((j + d) mod 26))]> l)).
  { intros l d j Hl Hj Hdd. unfold UseEnigma.rotatePosition. rewrite Hl.
    cbn [from_option id receiver bind]. cbv zeta. rewrite charCodeAt0_letter by done.
    cbn [sub add rem n65 n26]. change (26 =? 0) with false. cbv iota.
    rewrite Z.rem_mod_nonneg by lia.
    replace (65 + j - 65 + d + 26) with (j + d + 1 * 26) by lia.
    rewrite Z.mod_add by lia. rewrite at_ALPHABET; [done|].
    apply Z.mod_pos_bound. lia. }
  split; [by apply Hone|].
  rewrite (Hone prev direction k) by done. cbn [bind].
  assert (Hlt : (index < length prev)%nat) by by eapply lookup_lt_Some.
  rewrite (Hone _ (- direction) ((k + direction) mod 26)).
  - rewrite list_insert_insert_eq. f_equal.
    replace (((k + direction) mod 26 + - direction) mod 26) with k.
    + by apply list_insert_id.
    + rewrite Zplus_mod_idemp_l.
      replace (k + direction + - direction) with k by lia.
      by rewrite Z.mod_small.
  - by rewrite list_lookup_insert_eq.
  - apply Z.mod_pos_bound. lia.
  - lia.
Qed.

Lemma rotatePosition_round_trip_witness :
  UseEnigma.rotatePosition 2 1 [str "A"; str "A"; str "Z"]
  = Ret [str "A"; str "A"; str "A"].
Proof.
  exact (proj1 (rotatePosition_round_trip 2 1 [str "A"; str "A"; str "Z"] 25
                  eq_refl ltac:(lia) (or_introl eq_refl))).
Defined.

Lemma is_capital_includes a :
  includes ALPHABET (String a EmptyString) = UseEnigma.is_capital a.
Proof. destruct a as [[] [] [] [] [] [] [] []]; vm_compute; reflexivity. Qed.

Lemma accepted_two_capitals q :
  toUpperCase q = q -> UseEnigma.two_capitals q = false -> accepted q = None.
Proof.
  destruct q as [|x [|y [|? ?]]]; try done. cbn [toUpperCase]. intros [= Hx Hy].
  unfold accepted, UseEnigma.two_capitals. cbn [toUpperCase].
  rewrite Hx, Hy, !is_capital_includes.
  by destruct (UseEnigma.is_capital x), (UseEnigma.is_capital y).
Qed.

Lemma omap_cons_accepted par pares :
  omap accepted (par :: pares)
  = match accepted par with
    | Some ab => ab :: omap accepted pares
    | None => omap accepted pares
    end.
Proof. done. Qed.

Lemma setPlugboardPairs_accepted pairs :
  omap accepted (UseEnigma.setPlugboardPairs pairs) = omap accepted pairs.
Proof.
  unfold UseEnigma.setPlugboardPairs.
  induction pairs as [|p pairs IH]; [done|].
  cbn [map List.filter]. rewrite omap_cons_accepted, <- (accepted_toUpperCase p).
  destruct (_ && _) eqn:E.
  - by rewrite omap_cons_accepted, IH.
  - rewrite IH. apply andb_false_iff in E as [E|E].
    + destruct (toUpperCase p) as [|x [|y [|? ?]]]; done.
    + by rewrite (accepted_two_capitals _ (toUpperCase_idem p) E).
Qed.

(** X25: on entries of code units below 128 (the strings on which
    [toUpperCase] is modelled) the filter of [setPlugboardPairs] changes
    nothing for the plugboard: the entries it stores build the very map
    the entries typed build, in the rewritten engine and in the engine it
    rewrites, and every entry it stores is two capital letters. *)
Theorem setPlugboardPairs_same_board (pairs : list string) :
  forallb seven_bit pairs = true ->
  Refactored.buildMappings (UseEnigma.setPlugboardPairs pairs)
  = Refactored.buildMappings pairs
  /\ Plugboard.new (UseEnigma.setPlugboardPairs pairs) = Plugboard.new pairs
  /\ Forall (fun p => UseEnigma.two_capitals p = true) (UseEnigma.setPlugboardPairs pairs).
Proof.
  intros _.
  assert (H : Plugboard.new (UseEnigma.setPlugboardPairs pairs) = Plugboard.new pairs).
  { by rewrite !Plugboard_new_eq, setPlugboardPairs_accepted. }
  split; [by rewrite !buildMappings_legacy, H|]. split; [done|].
  unfold UseEnigma.setPlugboardPairs. apply Forall_forall.
  intros p Hp%list_elem_of_In%filter_In. by destruct Hp as [_ [_ ?]%andb_true_iff].
Qed.

Lemma setPlugboardPairs_same_board_witness :
  forallb seven_bit ["ab"; "x"; "C3"; "QZ"; "abc"] = true
  /\ UseEnigma.setPlugboardPairs ["ab"; "x"; "C3"; "QZ"; "abc"] = ["AB"; "QZ"]
  /\ Plugboard.new (UseEnigma.setPlugboardPairs ["ab"; "x"; "C3"; "QZ"; "abc"])
     = Plugboard.new ["ab"; "x"; "C3"; "QZ"; "abc"].
Proof.
  split; [reflexivity|]. split; [reflexivity|].
  exact (proj1 (proj2 (setPlugboardPairs_same_board
                         ["ab"; "x"; "C3"; "QZ"; "abc"] eq_refl))).
Defined.
